(** * xlsx-tags: writing a slice of tagged structs to a spreadsheet sheet

    A shallow embedding of [sheet_writer.go] and a verification of its
    documented behaviour.

    - Part I: the Go library functions the writer calls ([strings],
      [strconv], [regexp]), each modelled as far as the writer uses it.
    - Part II: the grammar of the tags: the three patterns and the
      functions that read a tag, under the names of the source.
    - Part III: Go values with their dynamic types, [reflect], the sheet.
    - Part IV: the writer, function by function.
    - Parts V and VI: the tags the patterns read and the tags of the
      specification, example inputs, and the definitions the proofs speak
      of.
    - Part VII: lemmas.  Part VIII: the properties of the writer.
      Part IX: further properties of the code. *)

From Stdlib Require Import ZArith Ascii String.
From stdpp Require Import base numbers option list strings gmap sorting.

Local Open Scope Z_scope.
Local Set Warnings "-register-all".

(* ===================================================================== *)
(** * Part I: the Go libraries *)
(* ===================================================================== *)

(** ** Bytes and character classes

    A Go string is a sequence of bytes; a Rocq [string] is a sequence of
    [ascii], which are bytes.  The three patterns of the writer hold ASCII
    literals and positive ASCII classes only, so matching them byte by byte
    is matching them rune by rune: a byte of a multi-byte rune is above 127
    and belongs to no class and to no literal. *)

Definition code (c : ascii) : nat := nat_of_ascii c.

Definition byte_in (lo hi c : ascii) : bool :=
  ((code lo <=? code c) && (code c <=? code hi))%nat.

(** [\d] *)
Definition is_digit (c : ascii) : bool := byte_in "0" "9" c.

(** [\w] is [[0-9A-Za-z_]] *)
Definition is_word (c : ascii) : bool :=
  is_digit c || byte_in "A" "Z" c || byte_in "a" "z" c || Ascii.eqb c "_".

(** [\s] is [[\t\n\f\r ]] *)
Definition is_space (c : ascii) : bool :=
  Ascii.eqb c "009" || Ascii.eqb c "010" || Ascii.eqb c "012"
  || Ascii.eqb c "013" || Ascii.eqb c " ".

(** ** Package [strings] *)

Fixpoint contains_byte (cutset : string) (c : ascii) : bool :=
  match cutset with
  | EmptyString => false
  | String d rest => Ascii.eqb c d || contains_byte rest c
  end.

Fixpoint trim_left (p : ascii → bool) (s : string) : string :=
  match s with
  | EmptyString => EmptyString
  | String c rest => if p c then trim_left p rest else s
  end.

Fixpoint trim_right (p : ascii → bool) (s : string) : string :=
  match s with
  | EmptyString => EmptyString
  | String c rest =>
      match trim_right p rest with
      | EmptyString => if p c then EmptyString else String c EmptyString
      | kept => String c kept
      end
  end.

(** [strings.Trim(s, cutset)]: all leading and trailing bytes of [cutset]
    removed (the writer's cutset is one ASCII byte). *)
Definition strings_Trim (s cutset : string) : string :=
  trim_right (contains_byte cutset) (trim_left (contains_byte cutset) s).

(** White space as [strings.TrimSpace] sees it in ASCII: tab, line feed,
    vertical tab, form feed, carriage return and space.  The white space
    beyond ASCII (U+0085, U+00A0, ...) is left out: the writer trims a
    capture of [headingRegex], whose classes are ASCII. *)
Definition is_ascii_space (c : ascii) : bool :=
  Ascii.eqb c "009" || Ascii.eqb c "010" || Ascii.eqb c "011"
  || Ascii.eqb c "012" || Ascii.eqb c "013" || Ascii.eqb c " ".

Definition strings_TrimSpace (s : string) : string :=
  trim_right is_ascii_space (trim_left is_ascii_space s).

(** ** Errors *)

Inductive strconv_error := ErrSyntax | ErrRange.

(** The error values of the package, and [*strconv.NumError] with its
    fields [Func], [Num] and [Err]. *)
Inductive error :=
| ErrUnsupportedType
| ErrUnsupportedContentType
| ErrHeadingPropRequired
| NumError (Func Num : string) (Err : strconv_error).

(** ** Package [strconv] *)

(** [int] is 64 bits wide. *)
Definition intSize : Z := 64.
Definition maxInt : Z := 2 ^ (intSize - 1) - 1.
Definition minInt : Z := - 2 ^ (intSize - 1).

Definition maxUint64 : Z := 2 ^ 64 - 1.

Definition digit_val (c : ascii) : option Z :=
  if is_digit c then Some (Z.of_nat (code c) - 48) else None.

(** The loop of [strconv.ParseUint(s, 10, 64)] over the bytes of [s], with
    the number read so far in [n], a [uint64].  A byte that is no decimal
    digit ends the loop with a syntax error, a number that leaves [uint64]
    ends it with the greatest [uint64] and a range error: whichever the
    loop meets first. *)
Fixpoint parse_uint (s : string) (n : Z) : Z * option strconv_error :=
  match s with
  | EmptyString => (n, None)
  | String c rest =>
      match digit_val c with
      | None => (0, Some ErrSyntax)
      | Some d =>
          if maxUint64 / 10 + 1 <=? n then (maxUint64, Some ErrRange)
          else
            let n := n * 10 in
            let n1 := (n + d) mod 2 ^ 64 in
            if (n1 <? n) || (maxUint64 <? n1) then (maxUint64, Some ErrRange)
            else parse_uint rest n1
      end
  end.

Definition strconv_ParseUint (s : string) : Z * option strconv_error :=
  match s with
  | EmptyString => (0, Some ErrSyntax)
  | _ => parse_uint s 0
  end.

(** [strconv.Atoi(s)] is [ParseInt(s, 10, 0)] with [Atoi] for the name of
    the function in the error (on a string of fewer than 19 bytes [Atoi]
    reads the digits itself, to the same result): an optional sign, then
    [ParseUint] on the rest; a syntax error of [ParseUint] is returned with
    zero, and a number that leaves [int] with the nearest bound and a range
    error. *)
Definition strconv_Atoi (s : string) : Z * option error :=
  match s with
  | EmptyString => (0, Some (NumError "Atoi" s ErrSyntax))
  | _ =>
      let '(neg, body) :=
        match s with
        | String "+" rest => (false, rest)
        | String "-" rest => (true, rest)
        | _ => (false, s)
        end in
      match strconv_ParseUint body with
      | (_, Some ErrSyntax) => (0, Some (NumError "Atoi" s ErrSyntax))
      | (un, _) =>
          let cutoff := 2 ^ (intSize - 1) in
          if negb neg && (cutoff <=? un)
          then (cutoff - 1, Some (NumError "Atoi" s ErrRange))
          else if neg && (cutoff <? un)
          then (- cutoff, Some (NumError "Atoi" s ErrRange))
          else (if neg then - un else un, None)
      end
  end.

(** ** Package [regexp]

    The patterns of the writer use literals, character classes, [+] on a
    class, [?], alternation, [$] and (named) groups.  Go finds the leftmost
    match and, there, the one a backtracking matcher tries first; [matchK]
    is that matcher, with the rest of the pattern as a continuation. *)

Inductive regex :=
| Lit (l : string)
| Class (p : ascii → bool)
| PlusClass (p : ascii → bool)
| Quest (r : regex)
| Cat (r1 r2 : regex)
| Alt (r1 r2 : regex)
| EndText
| Group (i : nat) (name : string) (r : regex).

Fixpoint strip_prefix (l s : string) : option string :=
  match l, s with
  | EmptyString, _ => Some s
  | String a l', String b s' => if Ascii.eqb a b then strip_prefix l' s' else None
  | String _ _, EmptyString => None
  end.

(** What a match that began at [s] and has [rest] left to read has read. *)
Definition consumed (s rest : string) : string :=
  substring 0 (String.length s - String.length rest) s.

Definition or_else {A} (x y : option A) : option A :=
  match x with Some _ => x | None => y end.

Fixpoint matchK {R} (r : regex) (s : string) (caps : gmap nat string)
    (k : string → gmap nat string → option R) : option R :=
  match r with
  | Lit l =>
      match strip_prefix l s with
      | Some rest => k rest caps
      | None => None
      end
  | Class p =>
      match s with
      | String c rest => if p c then k rest caps else None
      | EmptyString => None
      end
  | PlusClass p =>
      (fix more (s : string) : option R :=
         match s with
         | String c rest =>
             if p c then or_else (more rest) (k rest caps) else None
         | EmptyString => None
         end) s
  | Quest r1 => or_else (matchK r1 s caps k) (k s caps)
  | Cat r1 r2 => matchK r1 s caps (λ rest caps', matchK r2 rest caps' k)
  | Alt r1 r2 => or_else (matchK r1 s caps k) (matchK r2 s caps k)
  | EndText =>
      match s with
      | EmptyString => k s caps
      | String _ _ => None
      end
  | Group i _ r1 =>
      matchK r1 s caps (λ rest caps', k rest (<[i := consumed s rest]> caps'))
  end.

(** The leftmost match: the whole match and the groups that took part. *)
Fixpoint find (r : regex) (s : string) : option (string * gmap nat string) :=
  match matchK r s ∅ (λ rest caps, Some (consumed s rest, caps)) with
  | Some m => Some m
  | None =>
      match s with
      | String _ rest => find r rest
      | EmptyString => None
      end
  end.

(** The groups of a pattern, in the order of their opening parentheses. *)
Fixpoint groups (r : regex) : list (nat * string) :=
  match r with
  | Lit _ | Class _ | PlusClass _ | EndText => []
  | Quest r1 => groups r1
  | Cat r1 r2 | Alt r1 r2 => groups r1 ++ groups r2
  | Group i name r1 => (i, name) :: groups r1
  end.

Definition NumSubexp (r : regex) : nat := length (groups r).

(** [SubexpNames]: the empty name for the whole match, then one name per
    group, empty for a group without a name. *)
Definition SubexpNames (r : regex) : list string := "" :: (groups r).*2.

(** [FindStringSubmatch]: [None] for Go's [nil]; else the whole match and
    the text of each group, empty for a group that took no part. *)
Definition FindStringSubmatch (r : regex) (s : string) : option (list string) :=
  match find r s with
  | None => None
  | Some (whole, caps) =>
      Some (whole :: ((λ i, default "" (caps !! i)) <$> seq 1 (NumSubexp r)))
  end.

(* ===================================================================== *)
(** * Part II: the tag grammar of the writer *)
(* ===================================================================== *)

Definition tagName : string := "xls".

Record parseOpts := mkOpts {
  order : Z;
  heading : string;
  format : string
}.

(** The zero value [parseOpts{}]. *)
Definition zeroOpts : parseOpts := mkOpts 0 "" "".

(** The source calls this [hasFormatting] and returns [o.format == ""]. *)
Definition hasFormatting (o : parseOpts) : bool := String.eqb (format o) "".

(** [optsByOrder.Less] at two elements. *)
Definition Less (a b : parseOpts) : bool := order a <? order b.

(** [[\d\s\w]] *)
Definition order_class (c : ascii) : bool := is_digit c || is_space c || is_word c.

(** [[#\w.,-/\\ ]]: [#], a word byte, [.], the range from [,] to [/], the
    backslash and the space. *)
Definition quoted_class (c : ascii) : bool :=
  Ascii.eqb c "#" || is_word c || Ascii.eqb c "." || byte_in "," "/" c
  || Ascii.eqb c "\" || Ascii.eqb c " ".

(** [[#\w\s]] *)
Definition bare_class (c : ascii) : bool :=
  Ascii.eqb c "#" || is_word c || is_space c.

(** [[-\w\s%.\d\\/]] *)
Definition format_class (c : ascii) : bool :=
  Ascii.eqb c "-" || is_word c || is_space c || Ascii.eqb c "%"
  || Ascii.eqb c "." || is_digit c || Ascii.eqb c "\" || Ascii.eqb c "/".

(** The double quote, byte 34. *)
Definition dquote_byte : ascii :=
  Ascii false true false false false true false false.
Definition dquote : string := String dquote_byte EmptyString.

(** [order=(?P<order>[\d\s\w]+),?|$] *)
Definition orderRegex : regex :=
  Alt (Cat (Lit "order=")
         (Cat (Group 1 "order" (PlusClass order_class)) (Quest (Lit ","))))
      EndText.

(** [heading=(?P<heading>("[#\w.,-/\\ ]+")|([#\w\s]+))(,|$)] *)
Definition headingRegex : regex :=
  Cat (Lit "heading=")
    (Cat (Group 1 "heading"
            (Alt (Group 2 "" (Cat (Lit dquote)
                                (Cat (PlusClass quoted_class) (Lit dquote))))
                 (Group 3 "" (PlusClass bare_class))))
         (Group 4 "" (Alt (Lit ",") EndText))).

(** [format=(?P<format>[-\w\s%.\d\\/]+)(,|$)] *)
Definition formatRegex : regex :=
  Cat (Lit "format=")
    (Cat (Group 1 "format" (PlusClass format_class))
         (Group 2 "" (Alt (Lit ",") EndText))).

(** The map of the named groups of the leftmost match, empty without one. *)
Definition findStringSubmatchMap (r : regex) (s : string) : gmap string string :=
  match FindStringSubmatch r s with
  | None => ∅
  | Some match_ =>
      foldl (λ (captures : gmap string string) '(i, name),
               if (i =? 0)%nat || String.eqb name ""
               then captures
               else <[name := default "" (match_ !! i)]> captures)
            ∅ (imap pair (SubexpNames r))
  end.

(** Reading a Go map at a key it may lack: the zero value. *)
Definition at_key (m : gmap string string) (key : string) : string :=
  default "" (m !! key).

Definition orderFromTag (tag : string) : Z * option error :=
  let submatches := findStringSubmatchMap orderRegex tag in
  strconv_Atoi (at_key submatches "order").

Definition headingFromTag (tag : string) : string * option error :=
  let submatches := findStringSubmatchMap headingRegex tag in
  let heading := strings_Trim (at_key submatches "heading") dquote in
  let heading := strings_TrimSpace heading in
  if negb (String.eqb heading "") then (heading, None)
  else (heading, Some ErrHeadingPropRequired).

Definition formatFromTag (tag : string) : string :=
  let submatches := findStringSubmatchMap formatRegex tag in
  at_key submatches "format".

Definition parseOptFromTag (tag : string) : parseOpts * option error :=
  match orderFromTag tag with
  | (_, Some err) => (zeroOpts, Some err)
  | (order, None) =>
      match headingFromTag tag with
      | (_, Some err) => (zeroOpts, Some err)
      | (heading, None) => (mkOpts order heading (formatFromTag tag), None)
      end
  end.

(* ===================================================================== *)
(** * Part III: values, types and the sheet *)
(* ===================================================================== *)

(** ** Results of Go code: a value, or a run-time panic *)

Inductive Result (A : Type) :=
| Ok (a : A)
| Panic (msg : string).
Arguments Ok {A} a.
Arguments Panic {A} msg.

#[global] Instance Result_ret : MRet Result := λ A a, Ok a.
#[global] Instance Result_bind : MBind Result := λ A B f r,
  match r with Ok a => f a | Panic msg => Panic msg end.

(** ** Package [reflect] *)

Module Reflect.

Inductive Kind :=
| Invalid | Bool | Int | Int8 | Int16 | Int32 | Int64
| Uint | Uint8 | Uint16 | Uint32 | Uint64 | Uintptr
| Float32 | Float64 | Complex64 | Complex128
| Array | Chan | Func | Interface | Map | Pointer | Slice
| Str | Struct | UnsafePointer.

#[global] Instance Kind_eq_dec : EqDecision Kind.
Proof. solve_decision. Defined.

(** A method of a method set: its name and its signature. *)
Record Method := mkMethod { mname : string; msig : string }.

#[global] Instance Method_eq_dec : EqDecision Method.
Proof. solve_decision. Defined.

(** A struct tag in the conventional format, as its key/value pairs. *)
Definition StructTag := list (string * string).

(** [StructTag.Get]: the value of the first pair with the key, or [""]. *)
Fixpoint Get (tag : StructTag) (key : string) : string :=
  match tag with
  | [] => ""
  | (k, v) :: rest => if String.eqb k key then v else Get rest key
  end.

(** [reflect.StructField], without the field's type, offset and index,
    which the writer does not read.  [PkgPath] is empty for an exported
    field. *)
Record StructField := mkField {
  Name : string;
  PkgPath : string;
  Tag : StructTag
}.

(** A type descriptor: the package path and name of a defined type (both
    empty for an unnamed type, the path empty for a predeclared one), its
    kind, the element type of an array, chan, map, pointer or slice, the
    fields of a struct and the method set. *)
Inductive rtype := mkType {
  TPkgPath : string;
  TName : string;
  TKind : Kind;
  TElem : option rtype;
  TFields : list StructField;
  TMethods : list Method
}.

Definition predeclared (name : string) (k : Kind) : rtype :=
  mkType "" name k None [] [].

End Reflect.

(** ** Package [time] *)

(** An instant: seconds and nanoseconds since January 1, year 1,
    00:00:00 UTC, and the name of the location. *)
Record Time := mkTime { sec : Z; nsec : Z; loc : string }.

(** [Time.IsZero] *)
Definition IsZero (t : Time) : bool := (sec t =? 0) && (nsec t =? 0).

Definition timeType : Reflect.rtype :=
  Reflect.mkType "time" "Time" Reflect.Struct None
    [Reflect.mkField "wall" "time" []; Reflect.mkField "ext" "time" [];
     Reflect.mkField "loc" "time" []]
    [Reflect.mkMethod "Format" "func(string) string";
     Reflect.mkMethod "IsZero" "func() bool";
     Reflect.mkMethod "String" "func() string"].

(** ** Go values with their dynamic type

    [VNil] is the nil interface value.  The values of the eight predeclared
    types the writer's type switch names, and of [time.Time], have a
    constructor each; a float is its IEEE 754 bit pattern.  A struct, an
    array or slice, and a value of any other type carry their type. *)
Inductive Value :=
| VNil
| VInt (n : Z) | VInt8 (n : Z) | VInt16 (n : Z) | VInt32 (n : Z) | VInt64 (n : Z)
| VFloat32 (bits : Z) | VFloat64 (bits : Z)
| VString (s : string)
| VTime (t : Time)
| VStruct (t : Reflect.rtype) (fieldValues : list Value)
| VList (t : Reflect.rtype) (items : list Value)
| VOther (t : Reflect.rtype) (repr : Z).

Definition intType := Reflect.predeclared "int" Reflect.Int.
Definition int8Type := Reflect.predeclared "int8" Reflect.Int8.
Definition int16Type := Reflect.predeclared "int16" Reflect.Int16.
Definition int32Type := Reflect.predeclared "int32" Reflect.Int32.
Definition int64Type := Reflect.predeclared "int64" Reflect.Int64.
Definition float32Type := Reflect.predeclared "float32" Reflect.Float32.
Definition float64Type := Reflect.predeclared "float64" Reflect.Float64.
Definition stringType := Reflect.predeclared "string" Reflect.Str.

(** [reflect.TypeOf]: the dynamic type, [None] (Go's nil [Type]) for the
    nil interface value. *)
Definition reflect_TypeOf (i : Value) : option Reflect.rtype :=
  match i with
  | VNil => None
  | VInt _ => Some intType
  | VInt8 _ => Some int8Type
  | VInt16 _ => Some int16Type
  | VInt32 _ => Some int32Type
  | VInt64 _ => Some int64Type
  | VFloat32 _ => Some float32Type
  | VFloat64 _ => Some float64Type
  | VString _ => Some stringType
  | VTime _ => Some timeType
  | VStruct t _ | VList t _ | VOther t _ => Some t
  end.

(** [reflect.ValueOf]: the [reflect.Value] of a value is the value itself
    here; the zero [Value] is [VNil]. *)
Definition reflect_ValueOf (i : Value) : Value := i.

(** [Value.Kind]: [Invalid] for the zero [Value]. *)
Definition Value_Kind (v : Value) : Reflect.Kind :=
  match reflect_TypeOf v with
  | None => Reflect.Invalid
  | Some t => Reflect.TKind t
  end.

(** [Value.Type] panics on the zero [Value]. *)
Definition Value_Type (v : Value) : Result Reflect.rtype :=
  match reflect_TypeOf v with
  | None => Panic "reflect: call of reflect.Value.Type on zero Value"
  | Some t => Ok t
  end.

Definition Type_Kind (t : Reflect.rtype) : Reflect.Kind := Reflect.TKind t.

(** [Type.Elem] panics unless the kind is array, chan, map, pointer or
    slice. *)
Definition Type_Elem (t : Reflect.rtype) : Result Reflect.rtype :=
  match Reflect.TKind t, Reflect.TElem t with
  | (Reflect.Array | Reflect.Chan | Reflect.Map | Reflect.Pointer
     | Reflect.Slice), Some e => Ok e
  | _, _ => Panic "reflect: Elem of invalid type"
  end.

(** [Type.NumField] and [Type.Field] panic unless the kind is struct. *)
Definition Type_NumField (t : Reflect.rtype) : Result nat :=
  match Reflect.TKind t with
  | Reflect.Struct => Ok (length (Reflect.TFields t))
  | _ => Panic "reflect: NumField of non-struct type"
  end.

Definition Type_Field (t : Reflect.rtype) (i : nat) : Result Reflect.StructField :=
  match Reflect.TKind t with
  | Reflect.Struct =>
      match Reflect.TFields t !! i with
      | Some f => Ok f
      | None => Panic "reflect: Field index out of bounds"
      end
  | _ => Panic "reflect: Field of non-struct type"
  end.

(** [t.Implements(u)]: [u] must be a non-nil interface type; then every
    method of [u] is in the method set of [t]. *)
Definition Type_Implements (t : Reflect.rtype) (u : option Reflect.rtype) : Result bool :=
  match u with
  | None => Panic "reflect: nil type passed to Type.Implements"
  | Some u =>
      if decide (Reflect.TKind u = Reflect.Interface)
      then Ok (forallb (λ m, bool_decide (m ∈ Reflect.TMethods t)) (Reflect.TMethods u))
      else Panic "reflect: non-interface type passed to Type.Implements"
  end.

(** [Value.Len] and [Value.Index] on an array or slice. *)
Definition Value_Len (v : Value) : Result nat :=
  match v with
  | VList _ items => Ok (length items)
  | _ => Panic "reflect: call of reflect.Value.Len on a value that is no array or slice"
  end.

Definition Value_Index (v : Value) (i : nat) : Result Value :=
  match v with
  | VList _ items =>
      match items !! i with
      | Some item => Ok item
      | None => Panic "reflect: slice index out of range"
      end
  | _ => Panic "reflect: call of reflect.Value.Index on a value that is no array or slice"
  end.

(** [Value.NumField] panics unless the kind is struct. *)
Definition Value_NumField (v : Value) : Result nat :=
  t ← Value_Type v; Type_NumField t.

(** [Value.Field]: the value of the field, and whether it was reached
    through an unexported field (the read-only flag of [reflect.Value]). *)
Definition Value_Field (v : Value) (i : nat) : Result (Value * bool) :=
  match v with
  | VStruct t fieldValues =>
      f ← Type_Field t i;
      match fieldValues !! i with
      | Some fv => Ok (fv, negb (String.eqb (Reflect.PkgPath f) ""))
      | None => Panic "reflect: Field index out of range"
      end
  | VTime _ =>
      (* the fields of [time.Time] are unexported: what they hold cannot be
         read through [Interface] *)
      f ← Type_Field timeType i; Ok (VNil, true)
  | _ => Panic "reflect: call of reflect.Value.Field on a value that is no struct"
  end.

(** [Value.Interface] panics on a value obtained from an unexported
    field. *)
Definition Value_Interface (fv : Value * bool) : Result Value :=
  if fv.2
  then Panic "reflect.Value.Interface: cannot return value obtained from unexported field or method"
  else Ok fv.1.

(** ** Package [xlsx]: the sheet

    A sheet is its rows, a row the values of its cells: what the
    [*xlsx.Sheet] the writer is given points to, the pointer not being
    nil.  [AddRow] appends an empty row and returns it; [AddCell] appends
    a cell to that row, the last of the sheet, and the writer sets the
    cell's value. *)
Definition Row := list string.
Definition Sheet := list Row.

Definition AddRow (sheet : Sheet) : Sheet := sheet ++ [[]].

Definition AddCell (sheet : Sheet) (value : string) : Sheet :=
  match length sheet with
  | O => sheet
  | S n => alter (λ row, row ++ [value]) n sheet
  end.

(** ** The writer's monad: the sheet as state

    The writer changes the sheet of its caller in place: what it wrote
    before it panics is written.  A computation returns its result, a value
    or a panic, with the sheet as it has left it. *)

Definition M (A : Type) : Type := Sheet → Result A * Sheet.

#[global] Instance M_ret : MRet M := λ A a sheet, (Ok a, sheet).
#[global] Instance M_bind : MBind M := λ A B f m sheet,
  match m sheet with
  | (Ok a, sheet') => f a sheet'
  | (Panic msg, sheet') => (Panic msg, sheet')
  end.

Definition lift {A} (r : Result A) : M A := λ sheet, (r, sheet).

Fixpoint foldM {A S} (f : S → A → M S) (s : S) (l : list A) : M S :=
  match l with
  | [] => mret s
  | x :: rest => s' ← f s x; foldM f s' rest
  end.

Fixpoint foldR {A S} (f : S → A → Result S) (s : S) (l : list A) : Result S :=
  match l with
  | [] => Ok s
  | x :: rest => s' ← f s x; foldR f s' rest
  end.

(** Reading and writing a slice at an index: out of range panics. *)
Definition index {A} (l : list A) (i : nat) : Result A :=
  match l !! i with
  | Some x => Ok x
  | None => Panic "runtime error: index out of range"
  end.

Definition set_index {A} (l : list A) (i : nat) (x : A) : Result (list A) :=
  if decide (i < length l)%nat then Ok (<[i := x]> l)
  else Panic "runtime error: index out of range".

(* ===================================================================== *)
(** * Part IV: the writer *)
(* ===================================================================== *)

(** The order [sort.Sort] leaves: no element is [Less] than one before
    it. *)
Definition in_order (a b : parseOpts) : Prop := Less b a = false.

(** What the writer calls and this file does not define: [fmt.Sprintf],
    [Time.Format] and [Time.String], the [String] method of the dynamic
    type of a value, the [Header] and [Data] methods of a [Marshaller], and
    [sort.Sort] at [optsByOrder].

    A method of the dynamic type of a value may panic: so does [String] on
    a nil pointer whose method has a value receiver (a nil [*time.Time]),
    and so does any method whose body panics.  [fmt.Sprintf] calls methods
    of its operands as well.  These calls return a [Result].  [Time.Format]
    and [Time.String] are called on a [time.Time], not through a pointer,
    and return for every time and layout.

    Of [sort.Sort] the properties below assume, where they need it, what
    its documentation promises: the elements are kept and left in order.
    The sort need not be stable. *)
Class Runtime := {
  fmt_Sprintf : string → list Value → Result string;
  time_Format : Time → string → string;
  time_String : Time → string;
  call_String : Value → Result string;
  call_Header : Value → Result (list string);
  call_Data : Value → Result (list (list string));
  sort_Sort : list parseOpts → list parseOpts
}.

(** Modelled from the spec: the interface [Marshaller], declared outside
    [sheet_writer.go]; the spec gives it a method for the header and one
    for the rows, which the writer calls [Header] and [Data]. *)
Definition Marshaller : Reflect.rtype :=
  Reflect.mkType "xlsx_tags" "Marshaller" Reflect.Interface None []
    [Reflect.mkMethod "Data" "func() [][]string";
     Reflect.mkMethod "Header" "func() []string"].

(** [fmt.Stringer] *)
Definition Stringer : Reflect.rtype :=
  Reflect.mkType "fmt" "Stringer" Reflect.Interface None []
    [Reflect.mkMethod "String" "func() string"].

(** Whether the dynamic type of a value has the methods of an interface: a
    type assertion or a case of a type switch at an interface type.  The nil
    interface value has none. *)
Definition has_methods (val : Value) (iface : Reflect.rtype) : bool :=
  match reflect_TypeOf val with
  | None => false
  | Some t =>
      forallb (λ m, bool_decide (m ∈ Reflect.TMethods t)) (Reflect.TMethods iface)
  end.

(** [reflect.TypeOf((Marshaller)(nil))]: the conversion of [nil] to the
    interface type is the nil interface value, and [TypeOf] of it is the
    nil [Type].  (Were [Marshaller] no interface type, [TypeOf] would
    return that type and [Implements] would panic on it all the same.) *)
Definition marshallerType : option Reflect.rtype := reflect_TypeOf VNil.

Definition getListType (s : Value) : Result Reflect.rtype :=
  match reflect_TypeOf s with
  | None => Panic "runtime error: invalid memory address or nil pointer dereference"
  | Some t => Type_Elem t
  end.

Definition writeRow (data : list string) : M unit := λ sheet,
  (Ok tt, foldl AddCell (AddRow sheet) data).

Definition writeHeading (data : list string) : M unit := writeRow data.

Definition writeHeadingFromOpts (opts : list parseOpts) : M unit :=
  let data := foldl (λ data '(key, opt), <[key := heading opt]> data)
                (replicate (length opts) "") (imap pair opts) in
  writeRow data.

(** The loop of [getParseOptions] from field [i] on. *)
Fixpoint getParseOptions_from (data : Reflect.rtype) (indices : list nat)
    (opts : list parseOpts) : Result (list parseOpts * option error) :=
  match indices with
  | [] => Ok (opts, None)
  | i :: rest =>
      f ← Type_Field data i;
      let tag := Reflect.Get (Reflect.Tag f) tagName in
      if String.eqb tag "" || String.eqb tag "-"
      then getParseOptions_from data rest opts
      else
        match parseOptFromTag tag with
        | (_, Some err) => Ok ([], Some err)
        | (opt, None) => getParseOptions_from data rest (opts ++ [opt])
        end
  end.

Definition getParseOptions (data : Reflect.rtype) : Result (list parseOpts * option error) :=
  n ← Type_NumField data;
  getParseOptions_from data (seq 0 n) [].

Section Writer.
Context {rt : Runtime}.

(** The type switch of [writeWithTags] on the value of a field: the
    string written to the field's cell, or the panic of the call that
    should produce it. *)
Definition render (opt : parseOpts) (val : Value) : Result string :=
  match val with
  | VInt _ | VInt8 _ | VInt16 _ | VInt32 _ | VInt64 _
  | VFloat32 _ | VFloat64 _ | VString _ =>
      let format_ := "%v" in
      let format_ := if hasFormatting opt then format opt else format_ in
      fmt_Sprintf format_ [val]
  | VTime t =>
      let s := if hasFormatting opt then time_Format t (format opt)
               else time_String t in
      let s := if IsZero t then " - " else s in
      Ok s
  | _ =>
      if has_methods val Stringer then call_String val
      else fmt_Sprintf "%v" [val]
  end.

(** One field of one item: the body of the inner loop. *)
Definition writeField (opts : list parseOpts) (orderToCellPos : gmap Z nat)
    (item : Value) (values : list string) (j : nat) : Result (list string) :=
  t ← Value_Type item;
  f ← Type_Field t j;
  let tag := Reflect.Get (Reflect.Tag f) tagName in
  if String.eqb tag "" || String.eqb tag "-"
  then Ok values
  else
    let '(order, _) := orderFromTag tag in
    let pos := default 0%nat (orderToCellPos !! order) in
    opt ← index opts pos;
    fv ← Value_Field item j;
    val ← Value_Interface fv;
    text ← render opt val;
    set_index values pos text.

(** One item: the body of the outer loop. *)
Definition writeItem (opts : list parseOpts) (orderToCellPos : gmap Z nat)
    (v : Value) (values : list string) (i : nat) : M (list string) :=
  item ← lift (Value_Index v i);
  n ← lift (Value_NumField item);
  values ← lift (foldR (writeField opts orderToCellPos item) values (seq 0 n));
  writeRow values;;
  mret values.

Definition writeWithTags (data : Value) : M (option error) :=
  let v := reflect_ValueOf data in
  itemsType ← lift (getListType data);
  r ← lift (getParseOptions itemsType);
  match r with
  | (_, Some err) => mret (Some err)
  | (opts, None) =>
      let opts := sort_Sort opts in
      let orderToCellPos :=
        foldl (λ (m : gmap Z nat) '(i, opt), <[order opt := i]> m) ∅
              (imap pair opts) in
      writeHeadingFromOpts opts;;
      let values := replicate (length opts) "" in
      n ← lift (Value_Len v);
      foldM (writeItem opts orderToCellPos v) values (seq 0 n);;
      mret None
  end.

Definition writeWithMarshaller (data : Value) : M (option error) :=
  m ← lift (if has_methods data Marshaller then Ok data
            else Panic "interface conversion: missing method of Marshaller");
  header ← lift (call_Header m);
  writeHeading header;;
  rows ← lift (call_Data m);
  foldM (λ _ row, writeRow row) tt rows;;
  mret None.

Definition WriteToSheet (data : Value) : M (option error) :=
  let v := reflect_ValueOf data in
  let kind := Value_Kind v in
  if negb (bool_decide (kind = Reflect.Array)) && negb (bool_decide (kind = Reflect.Slice))
  then mret (Some ErrUnsupportedType)
  else
    itemsType ← lift (getListType data);
    if negb (bool_decide (Type_Kind itemsType = Reflect.Struct))
    then mret (Some ErrUnsupportedContentType)
    else
      t ← lift (Value_Type v);
      b ← lift (Type_Implements t marshallerType);
      if b : bool then writeWithMarshaller data else writeWithTags data.

End Writer.

(** ** A runtime to run the writer on examples

    [sort.Sort] runs an insertion sort on a slice of fewer than twelve
    elements: each element moves left while it is [Less] than the one before
    it.  [insert_back] works on the sorted part in reverse, its last element
    first. *)
Fixpoint insert_back (x : parseOpts) (before : list parseOpts) : list parseOpts :=
  match before with
  | [] => [x]
  | y :: rest => if Less x y then y :: insert_back x rest else x :: before
  end.

Definition insertionSort (l : list parseOpts) : list parseOpts :=
  reverse (foldl (λ before x, insert_back x before) [] l).


(* ===================================================================== *)
(** * Part V: the tags the patterns read *)
(* ===================================================================== *)

Fixpoint string_forall (p : ascii → bool) (s : string) : bool :=
  match s with
  | EmptyString => true
  | String c rest => p c && string_forall p rest
  end.

(** The three keys of a tag. *)
Inductive key := KOrder | KHeading | KFormat.

#[global] Instance key_eq_dec : EqDecision key.
Proof. solve_decision. Defined.

(** A heading as a tag writes it: bare, or between double quotes. *)
Inductive heading_text :=
| Bare (text : string)
| Quoted (body : string).

Definition written (h : heading_text) : string :=
  match h with
  | Bare text => text
  | Quoted body => dquote +:+ body +:+ dquote
  end.

Definition content (h : heading_text) : string :=
  match h with
  | Bare text => text
  | Quoted body => body
  end.

(** The number a string of decimal digits denotes: the last digit counts
    units, the one before it tens, and so on. *)
Fixpoint decimal_rev (digits : list ascii) : Z :=
  match digits with
  | [] => 0
  | c :: rest => (Z.of_nat (code c) - 48) + 10 * decimal_rev rest
  end.

Definition decimal (N : string) : Z :=
  decimal_rev (reverse (list_ascii_of_string N)).

(** [order=N]: digits, one or more, of a number an [int] holds. *)
Definition valid_order (N : string) : Prop :=
  N ≠ "" ∧ string_forall is_digit N = true ∧ decimal N ≤ maxInt.

(** [heading=H]: the bytes of the bare or of the quoted class, one or
    more, with something left once the white space around is trimmed. *)
Definition valid_heading (h : heading_text) : Prop :=
  content h ≠ ""
  ∧ string_forall (match h with Bare _ => bare_class | Quoted _ => quoted_class end)
      (content h) = true
  ∧ strings_TrimSpace (content h) ≠ "".

(** [format=F]: bytes of the format class, one or more. *)
Definition valid_format (F : string) : Prop :=
  F ≠ "" ∧ string_forall format_class F = true.

Definition pair_text (N : string) (h : heading_text) (F : string) (k : key) : string :=
  match k with
  | KOrder => "order=" +:+ N
  | KHeading => "heading=" +:+ written h
  | KFormat => "format=" +:+ F
  end.

Fixpoint join_comma (parts : list string) : string :=
  match parts with
  | [] => ""
  | [part] => part
  | part :: rest => part +:+ "," +:+ join_comma rest
  end.

(** The tag with the keys [keys] in that order, separated by commas. *)
Definition tag_of (N : string) (h : heading_text) (F : string) (keys : list key) : string :=
  join_comma (pair_text N h F <$> keys).

(** [order] and [heading] once each, [format] once or not at all, in any
    order. *)
Definition valid_keys (keys : list key) : Prop :=
  keys ≡ₚ [KOrder; KHeading] ∨ keys ≡ₚ [KOrder; KHeading; KFormat].

(** ** The tags as the specification words them

    These definitions follow the words of the specification, not the
    code; [valid_order], [valid_heading] and [valid_format] are compared
    with them.  A tag follows the grammar [key=value[,key=value...]]; the
    order is an integer, the heading a display text that is not empty,
    quoted or not, and the format a template or a pattern for the
    formatter. *)

(** A value of the grammar: it is not empty, and the comma ends it. *)
Definition spec_value (v : string) : Prop :=
  v ≠ "" ∧ string_forall (λ c, negb (Ascii.eqb c ",")) v = true.

(** An integer: a sign or none, then decimal digits, of a number an [int]
    holds. *)
Definition spec_valid_order (N : string) : Prop :=
  ∃ digits,
    (N = digits ∨ N = "+" +:+ digits ∨ N = "-" +:+ digits)
    ∧ digits ≠ "" ∧ string_forall is_digit digits = true
    ∧ decimal digits ≤ maxInt.

(** A display text: a bare one is a value of the grammar without a double
    quote, a quoted one ends at the next double quote; either has something
    left once the white space around it is trimmed. *)
Definition spec_valid_heading (h : heading_text) : Prop :=
  strings_TrimSpace (content h) ≠ ""
  ∧ string_forall (λ c, negb (Ascii.eqb c dquote_byte)) (content h) = true
  ∧ match h with Bare text => spec_value text | Quoted _ => True end.

(** A template of [fmt.Sprintf] or a layout of [Time.Format]: a value of
    the grammar. *)
Definition spec_valid_format (F : string) : Prop := spec_value F.

(* ===================================================================== *)
(** * Part VI: definitions the proofs speak of *)
(* ===================================================================== *)

(** A tail at which a run of the class [p] stops: the end of the text or a
    byte outside the class. *)
Definition stops (p : ascii → bool) (tail : string) : bool :=
  match tail with
  | EmptyString => true
  | String c _ => negb (p c)
  end.

(** Where a key/value pair of a tag ends: the end of the tag or a comma. *)
Definition at_boundary (tail : string) : bool :=
  match tail with
  | EmptyString => true
  | String c _ => Ascii.eqb c ","
  end.

(** A literal [key=]: it ends in [=] and holds no comma. *)
Fixpoint key_like (l : string) : bool :=
  match l with
  | EmptyString => false
  | String c EmptyString => Ascii.eqb c "="
  | String c rest => negb (Ascii.eqb c ",") && key_like rest
  end.

Definition not_eq_sign (c : ascii) : bool := negb (Ascii.eqb c "=").

(** The pattern of a key and the name of its group. *)
Definition pattern_of (k : key) : regex :=
  match k with
  | KOrder => orderRegex
  | KHeading => headingRegex
  | KFormat => formatRegex
  end.

Definition literal_of (k : key) : string :=
  match k with
  | KOrder => "order="
  | KHeading => "heading="
  | KFormat => "format="
  end.

Definition value_of (N : string) (h : heading_text) (F : string) (k : key) : string :=
  match k with
  | KOrder => N
  | KHeading => written h
  | KFormat => F
  end.

(** A match of [r] somewhere in [s] whose first group is [capture]. *)
Definition found (r : regex) (s capture : string) : Prop :=
  ∃ whole caps, find r s = Some (whole, caps) ∧ caps !! 1%nat = Some capture.

(** The tag of a field under the key of the writer. *)
Definition xls_tag (f : Reflect.StructField) : string :=
  Reflect.Get (Reflect.Tag f) tagName.

(** A field without a tag, or with the tag [-], is no column. *)
Definition skipped (tag : string) : bool :=
  String.eqb tag "" || String.eqb tag "-".

(** [getParseOptions] by recursion on the fields instead of their indices:
    the specifications of the columns so far, or the first error. *)
Fixpoint collect (fields : list Reflect.StructField) (opts : list parseOpts)
    : list parseOpts * option error :=
  match fields with
  | [] => (opts, None)
  | f :: rest =>
      if skipped (xls_tag f) then collect rest opts
      else
        match parseOptFromTag (xls_tag f) with
        | (_, Some err) => ([], Some err)
        | (opt, None) => collect rest (opts ++ [opt])
        end
  end.

(** The map from the order of a column to its position, as
    [writeWithTags] builds it. *)
Definition cell_positions (opts : list parseOpts) : gmap Z nat :=
  foldl (λ (m : gmap Z nat) '(i, opt), <[order opt := i]> m) ∅ (imap pair opts).

(** The specification of the column of a field, when the field is one and
    its tag parses. *)
Definition column_of (f : Reflect.StructField) : option parseOpts :=
  if skipped (xls_tag f) then None
  else match parseOptFromTag (xls_tag f) with
       | (opt, None) => Some opt
       | (_, Some _) => None
       end.

(** The cell of field [j] of an item of type [it] with the field values
    [fvs], when the columns are [sorted]: its position in the row and its
    text. *)
Definition cell {rt : Runtime} (it : Reflect.rtype) (sorted : list parseOpts)
    (fvs : list Value) (j pos : nat) (text : string) : Prop :=
  ∃ f opt val,
    Reflect.TFields it !! j = Some f ∧ column_of f = Some opt
    ∧ sorted !! pos = Some opt ∧ fvs !! j = Some val ∧ render opt val = Ok text.

(** The type switch returns on the values of the tagged fields of an item:
    no method it calls panics.  The specification it is given is that of a
    column with the order of the field. *)
Definition renders {rt : Runtime} (fields : list Reflect.StructField)
    (opts : list parseOpts) (fvs : list Value) : Prop :=
  ∀ j f opt o val,
    fields !! j = Some f → column_of f = Some opt →
    o ∈ opts → order o = order opt → fvs !! j = Some val →
    ∃ text, render o val = Ok text.

(** The values of the first case of the type switch: the eight
    predeclared types it names. *)
Definition is_basic (val : Value) : bool :=
  match val with
  | VInt _ | VInt8 _ | VInt16 _ | VInt32 _ | VInt64 _
  | VFloat32 _ | VFloat64 _ | VString _ => true
  | _ => false
  end.

Definition is_time (val : Value) : bool :=
  match val with VTime _ => true | _ => false end.

(** ** A runtime and inputs to run the writer on

    The functions of this runtime return the call they stand for, not what
    Go would print: a cell of an example shows which call filled it.
    [String] panics on a nil pointer, the representation 0 of a pointer
    type, as a method with a value receiver does.  The sort is the
    insertion sort; the [Marshaller] is the one of the spec's example. *)
Definition nil_dereference : string :=
  "runtime error: invalid memory address or nil pointer dereference".

Definition exampleRuntime : Runtime := {|
  fmt_Sprintf := λ format_ _, Ok ("Sprintf(" +:+ format_ +:+ ")");
  time_Format := λ _ layout, "Format(" +:+ layout +:+ ")";
  time_String := λ _, "Time.String()";
  call_String := λ val,
    match val with
    | VOther t 0 =>
        if bool_decide (Reflect.TKind t = Reflect.Pointer)
        then Panic nil_dereference else Ok "String()"
    | _ => Ok "String()"
    end;
  call_Header := λ _, Ok ["A"; "B"];
  call_Data := λ _, Ok [["1"; "2"]; ["3"; "4"]];
  sort_Sort := insertionSort
|}.

Definition tagged (name tag : string) : Reflect.StructField :=
  Reflect.mkField name "" [(tagName, tag)].

Definition structOf (name : string) (fields : list Reflect.StructField) : Reflect.rtype :=
  Reflect.mkType "main" name Reflect.Struct None fields [].

Definition sliceOf (elem : Reflect.rtype) : Reflect.rtype :=
  Reflect.mkType "" "" Reflect.Slice (Some elem) [] [].

Definition zeroTime : Time := mkTime 0 0 "UTC".
Definition someTime : Time := mkTime 63838713600 0 "UTC".

(** [type Person struct { Name string `xls:"order=2,heading=Name"`;
    secret int; Age int `xls:"order=1,heading=Age,format=%03d"`;
    Born time.Time `xls:"order=3,heading=Born"` }] *)
Definition personType : Reflect.rtype :=
  structOf "Person"
    [tagged "Name" "order=2,heading=Name";
     Reflect.mkField "secret" "main" [];
     tagged "Age" "order=1,heading=Age,format=%03d";
     tagged "Born" "order=3,heading=Born"].

Definition people : Value :=
  VList (sliceOf personType)
    [VStruct personType [VString "Ann"; VInt 7; VInt 41; VTime zeroTime];
     VStruct personType [VString "Bob"; VInt 9; VInt 35; VTime someTime]].

(** Two fields with the order 1, each holding the zero time. *)
Definition pairType : Reflect.rtype :=
  structOf "Pair" [tagged "A" "order=1,heading=A"; tagged "B" "order=1,heading=B"].

Definition pairs : Value :=
  VList (sliceOf pairType) [VStruct pairType [VTime zeroTime; VTime zeroTime]].

(** A field without an order before a field without a heading. *)
Definition entryType : Reflect.rtype :=
  structOf "Entry" [tagged "Name" "heading=Name"; tagged "Rank" "order=1"].

Definition entries : Value :=
  VList (sliceOf entryType) [VStruct entryType [VString "Ann"; VInt 1]].

(** A field without a heading after a field that parses. *)
Definition rankedType : Reflect.rtype :=
  structOf "Ranked" [tagged "Name" "order=1,heading=Name"; tagged "Rank" "order=2"].


(** [type Color int] with a method [String() string]. *)
Definition colorType : Reflect.rtype :=
  Reflect.mkType "main" "Color" Reflect.Int None []
    [Reflect.mkMethod "String" "func() string"].

Definition red : Value := VOther colorType 0.

Definition ann : Value :=
  VStruct personType [VString "Ann"; VInt 7; VInt 41; VTime zeroTime].

(** A slice type with the methods of [Marshaller]. *)
Definition reportType : Reflect.rtype :=
  Reflect.mkType "main" "Report" Reflect.Slice (Some (structOf "Line" [])) []
    [Reflect.mkMethod "Data" "func() [][]string";
     Reflect.mkMethod "Header" "func() []string"].

Definition report : Value :=
  VList reportType [VStruct (structOf "Line" []) []].

(** ** Further definitions

    [optsByOrder] as [sort.Sort] calls it, and what the further properties
    of Part IX speak of. *)

(** [optsByOrder.Len], [Swap] and [Less] at indices: an index out of range
    panics. *)
Definition optsByOrder_Len (o : list parseOpts) : nat := length o.

Definition optsByOrder_Swap (o : list parseOpts) (i j : nat) : Result (list parseOpts) :=
  oj ← index o j;
  oi ← index o i;
  Ok (<[j := oi]> (<[i := oj]> o)).

Definition optsByOrder_Less (o : list parseOpts) (i j : nat) : Result bool :=
  oi ← index o i;
  oj ← index o j;
  Ok (order oi <? order oj).

(** Whether the literal [l] occurs somewhere in [s]. *)
Fixpoint occurs (l s : string) : bool :=
  match strip_prefix l s with
  | Some _ => true
  | None =>
      match s with
      | EmptyString => false
      | String _ rest => occurs l rest
      end
  end.

(** A computation that only appends: its result, a value or a panic, and
    the rows it adds do not depend on the sheet it starts from, and the
    rows of that sheet stay, also when it panics. *)
Definition appends {A} (m : M A) : Prop :=
  ∃ (r : Result A) (out : list Row), ∀ sheet, m sheet = (r, sheet ++ out).

(** Field [j] of the struct type [it] writes to the cell at [pos] when the
    columns are [sorted]: the position [orderToCellPos] holds for its
    order. *)
Definition targets (it : Reflect.rtype) (sorted : list parseOpts) (j pos : nat) : Prop :=
  ∃ f opt,
    Reflect.TFields it !! j = Some f ∧ column_of f = Some opt
    ∧ cell_positions sorted !! order opt = Some pos.

(** A struct with a tagged field that is not exported. *)
Definition hiddenType : Reflect.rtype :=
  structOf "Hidden"
    [tagged "Name" "order=1,heading=Name";
     Reflect.mkField "age" "main" [(tagName, "order=2,heading=Age")]].

Definition hidden : Value :=
  VList (sliceOf hiddenType) [VStruct hiddenType [VString "Ann"; VInt 41]].

(** A slice of [int]. *)
Definition numbers : Value := VList (sliceOf intType) [VInt 1; VInt 2].

(** [*time.Time], whose method set holds the methods of [time.Time], and
    the nil pointer of this type. *)
Definition timePointerType : Reflect.rtype :=
  Reflect.mkType "" "" Reflect.Pointer (Some timeType) []
    (Reflect.TMethods timeType).

Definition nilTime : Value := VOther timePointerType 0.

(** [type Event struct { Name string `xls:"order=1,heading=Name"`;
    At *time.Time `xls:"order=2,heading=At"` }], and two events: the first
    has a time, boxed as any other value, the second has none. *)
Definition eventType : Reflect.rtype :=
  structOf "Event"
    [tagged "Name" "order=1,heading=Name"; tagged "At" "order=2,heading=At"].

Definition events : Value :=
  VList (sliceOf eventType)
    [VStruct eventType [VString "launch"; VOther timePointerType 1];
     VStruct eventType [VString "landing"; nilTime]].

(* ===================================================================== *)
(** * Part VII: lemmas *)
(* ===================================================================== *)

(** ** Strings *)
Lemma string_app_cons c (a b : string) : String c a +:+ b = String c (a +:+ b).
Proof. reflexivity. Qed.

Lemma string_app_nil (b : string) : "" +:+ b = b.
Proof. reflexivity. Qed.

Ltac push_app := rewrite ?string_app_cons, ?string_app_nil.

Lemma string_app_assoc (a b c : string) : (a +:+ b) +:+ c = a +:+ (b +:+ c).
Proof. induction a as [|x a IH]; push_app; [done | by f_equal]. Qed.

Lemma string_app_empty_r (a : string) : a +:+ "" = a.
Proof. induction a as [|x a IH]; push_app; [done | by f_equal]. Qed.

Lemma string_length_app (a b : string) :
  String.length (a +:+ b) = (String.length a + String.length b)%nat.
Proof. induction a as [|x a IH]; push_app; simpl; [done | by f_equal]. Qed.

Lemma substring_prefix (a b : string) :
  substring 0 (String.length a) (a +:+ b) = a.
Proof.
  induction a as [|x a IH]; push_app; simpl.
  - by destruct b.
  - by f_equal.
Qed.

Lemma consumed_app (a b : string) : consumed (a +:+ b) b = a.
Proof.
  unfold consumed. rewrite string_length_app.
  replace (String.length a + String.length b - String.length b)%nat
    with (String.length a) by lia.
  apply substring_prefix.
Qed.

Lemma string_forall_app p (a b : string) :
  string_forall p (a +:+ b) = string_forall p a && string_forall p b.
Proof. induction a as [|x a IH]; push_app; simpl; [done | by rewrite IH, andb_assoc]. Qed.

Lemma string_forall_impl (p q : ascii → bool) (s : string) :
  (∀ c, p c = true → q c = true) →
  string_forall p s = true → string_forall q s = true.
Proof.
  intros Hpq. induction s as [|c s IH]; simpl; [done|].
  rewrite !andb_true_iff. intros [Hc Hs]. auto.
Qed.

(** ** The matcher on a run of a class *)

Lemma matchK_plus_cons {R} p c rest caps (k : string → gmap nat string → option R) :
  matchK (PlusClass p) (String c rest) caps k
  = if p c then or_else (matchK (PlusClass p) rest caps k) (k rest caps) else None.
Proof. reflexivity. Qed.

Lemma matchK_plus_stop {R} p tail caps (k : string → gmap nat string → option R) :
  stops p tail = true → matchK (PlusClass p) tail caps k = None.
Proof.
  destruct tail as [|c tail]; [done|]. simpl. intros Hc.
  apply negb_true_iff in Hc. by rewrite Hc.
Qed.

Lemma matchK_plus_run {R} p body tail caps (k : string → gmap nat string → option R) :
  body ≠ "" →
  string_forall p body = true →
  stops p tail = true →
  is_Some (k tail caps) →
  matchK (PlusClass p) (body +:+ tail) caps k = k tail caps.
Proof.
  intros Hne Hall Hstop [x Hx].
  induction body as [|c body IH]; [done|].
  simpl in Hall. apply andb_true_iff in Hall as [Hc Hall].
  rewrite string_app_cons, matchK_plus_cons, Hc.
  destruct body as [|d body].
  - rewrite string_app_nil. rewrite (matchK_plus_stop p tail caps k Hstop). done.
  - rewrite IH by done. rewrite Hx. done.
Qed.

(** ** Skipping what is no match *)

Lemma find_step r c s :
  matchK r (String c s) ∅ (λ rest caps, Some (consumed (String c s) rest, caps)) = None →
  find r (String c s) = find r s.
Proof. intros Hm. simpl. by rewrite Hm. Qed.

Lemma strip_key_none l v tail :
  key_like l = true →
  string_forall not_eq_sign v = true →
  at_boundary tail = true →
  strip_prefix l (v +:+ tail) = None ∨ (v = "" ∧ tail = "").
Proof.
  revert l. induction v as [|c v IH]; intros l Hl Hv Ht.
  - destruct tail as [|t tail]; [by right|]. left. rewrite string_app_nil.
    simpl in Ht. apply Ascii.eqb_eq in Ht as ->.
    destruct l as [|a l]; [done|]. simpl.
    destruct (Ascii.eqb a ",") eqn:Ha; [|done].
    destruct l as [|b l]; simpl in Hl.
    + apply Ascii.eqb_eq in Hl as ->. done.
    + by rewrite Ha in Hl.
  - left. simpl in Hv. apply andb_true_iff in Hv as [Hc Hv].
    destruct l as [|a l]; [done|]. rewrite string_app_cons. simpl.
    destruct (Ascii.eqb a c) eqn:Hac; [|done].
    apply Ascii.eqb_eq in Hac as ->.
    destruct l as [|b l].
    { simpl in Hl. unfold not_eq_sign in Hc. by rewrite Hl in Hc. }
    simpl in Hl. apply andb_true_iff in Hl as [_ Hl].
    destruct (IH (String b l) Hl Hv Ht) as [?|[-> ->]]; [done|].
    done.
Qed.

Lemma matchK_Lit {R} l s caps (k : string → gmap nat string → option R) :
  matchK (Lit l) s caps k
  = match strip_prefix l s with Some rest => k rest caps | None => None end.
Proof. reflexivity. Qed.

Lemma matchK_Cat {R} r1 r2 s caps (k : string → gmap nat string → option R) :
  matchK (Cat r1 r2) s caps k
  = matchK r1 s caps (λ rest caps', matchK r2 rest caps' k).
Proof. reflexivity. Qed.

Lemma matchK_Alt {R} r1 r2 s caps (k : string → gmap nat string → option R) :
  matchK (Alt r1 r2) s caps k = or_else (matchK r1 s caps k) (matchK r2 s caps k).
Proof. reflexivity. Qed.

Lemma matchK_Quest {R} r1 s caps (k : string → gmap nat string → option R) :
  matchK (Quest r1) s caps k = or_else (matchK r1 s caps k) (k s caps).
Proof. reflexivity. Qed.

Lemma matchK_Group {R} i name r1 s caps (k : string → gmap nat string → option R) :
  matchK (Group i name r1) s caps k
  = matchK r1 s caps (λ rest caps', k rest (<[i := consumed s rest]> caps')).
Proof. reflexivity. Qed.

Lemma matchK_EndText {R} s caps (k : string → gmap nat string → option R) :
  matchK EndText s caps k
  = match s with EmptyString => k s caps | String _ _ => None end.
Proof. reflexivity. Qed.

Ltac step_match :=
  rewrite ?matchK_Alt, ?matchK_Cat, ?matchK_Group, ?matchK_Quest, ?matchK_Lit,
    ?matchK_EndText.

Lemma key_like_literal k : key_like (literal_of k) = true.
Proof. by destruct k. Qed.

(** A match of a pattern begins with the literal of its key, but for the
    empty match of [orderRegex] at the end of the text. *)
Lemma needs_literal {R} k c s caps (cont : string → gmap nat string → option R) :
  strip_prefix (literal_of k) (String c s) = None →
  matchK (pattern_of k) (String c s) caps cont = None.
Proof.
  intros Hno. destruct k; unfold pattern_of, orderRegex, headingRegex, formatRegex;
    step_match; unfold literal_of in Hno; by rewrite Hno.
Qed.

Lemma find_skip_value k v tail :
  string_forall not_eq_sign v = true →
  at_boundary tail = true →
  find (pattern_of k) (v +:+ tail) = find (pattern_of k) tail.
Proof.
  intros Hv Ht. induction v as [|c v IH]; [done|].
  rewrite string_app_cons, find_step.
  - apply IH. simpl in Hv. by apply andb_true_iff in Hv as [_ ?].
  - apply needs_literal. rewrite <- string_app_cons.
    destruct (strip_key_none (literal_of k) (String c v) tail) as [?|[? _]];
      auto using key_like_literal; done.
Qed.

Lemma find_skip_comma k more :
  find (pattern_of k) ("," +:+ more) = find (pattern_of k) more.
Proof.
  push_app. apply find_step, needs_literal. by destruct k.
Qed.

Lemma find_skip_pair k k' N h F tail :
  k ≠ k' →
  string_forall not_eq_sign (value_of N h F k') = true →
  at_boundary tail = true →
  find (pattern_of k) (pair_text N h F k' +:+ tail) = find (pattern_of k) tail.
Proof.
  intros Hk Hv Ht.
  rewrite <- (find_skip_value k (value_of N h F k') tail Hv Ht).
  destruct k, k'; try done; unfold pair_text, value_of;
    rewrite string_app_assoc; push_app;
    repeat (rewrite find_step by (by apply needs_literal)); done.
Qed.

Lemma strip_prefix_same a l s :
  strip_prefix (String a l) (String a s) = strip_prefix l s.
Proof. simpl. by rewrite Ascii.eqb_refl. Qed.

Lemma strip_prefix_nil s : strip_prefix "" s = Some s.
Proof. by destruct s. Qed.

Lemma or_else_None_l {A} (y : option A) : or_else None y = y.
Proof. reflexivity. Qed.

Lemma or_else_Some_l {A} (x : A) (y : option A) : or_else (Some x) y = Some x.
Proof. reflexivity. Qed.

Ltac run_match :=
  repeat progress (step_match; push_app;
                   rewrite ?strip_prefix_same, ?strip_prefix_nil; cbv beta iota).

Lemma boundary_cases tail :
  at_boundary tail = true → tail = "" ∨ ∃ more, tail = "," +:+ more.
Proof.
  destruct tail as [|c tail]; [by left|]. simpl. intros ->%Ascii.eqb_eq.
  right. by exists tail.
Qed.

Lemma boundary_stops p tail :
  p ","%char = false → at_boundary tail = true → stops p tail = true.
Proof.
  intros Hp Ht. destruct tail as [|c tail]; [done|]. simpl in *.
  apply Ascii.eqb_eq in Ht as ->. by rewrite Hp.
Qed.

Lemma find_here r s capture :
  (∃ whole caps,
     matchK r s ∅ (λ rest caps, Some (consumed s rest, caps)) = Some (whole, caps)
     ∧ caps !! 1%nat = Some capture) →
  found r s capture.
Proof.
  intros (whole & caps & Hm & Hc). exists whole, caps. split; [|done].
  destruct s; simpl; simpl in Hm; by rewrite Hm.
Qed.

Lemma here_order N tail :
  N ≠ "" → string_forall order_class N = true → at_boundary tail = true →
  found orderRegex ("order=" +:+ N +:+ tail) N.
Proof.
  intros HN Hcls Ht. apply find_here.
  unfold orderRegex. run_match.
  rewrite matchK_plus_run; [|done|done|by apply boundary_stops|].
  - rewrite consumed_app. step_match.
    destruct (strip_prefix "," tail); simpl; eexists _, _;
      (split; [reflexivity|]); by rewrite lookup_insert_eq.
  - step_match. destruct (strip_prefix "," tail); simpl; eauto.
Qed.

Lemma here_format F tail :
  F ≠ "" → string_forall format_class F = true → at_boundary tail = true →
  found formatRegex ("format=" +:+ F +:+ tail) F.
Proof.
  intros HF Hcls Ht. apply find_here.
  unfold formatRegex. run_match.
  rewrite matchK_plus_run; [|done|done|by apply boundary_stops|].
  - rewrite consumed_app.
    destruct (boundary_cases tail Ht) as [->|[more ->]]; run_match;
      rewrite ?or_else_Some_l, ?or_else_None_l; eexists _, _; (split; [reflexivity|]);
      by rewrite lookup_insert_ne, lookup_insert_eq.
  - destruct (boundary_cases tail Ht) as [->|[more ->]]; run_match;
      rewrite ?or_else_Some_l, ?or_else_None_l; eauto.
Qed.

Lemma quote_not_bare c : bare_class c = true → Ascii.eqb dquote_byte c = false.
Proof. revert c. intros [[] [] [] [] [] [] [] []]; by vm_compute. Qed.

Lemma here_heading_bare H tail :
  H ≠ "" → string_forall bare_class H = true → at_boundary tail = true →
  found headingRegex ("heading=" +:+ H +:+ tail) H.
Proof.
  intros HH Hcls Ht. apply find_here.
  unfold headingRegex. run_match.
  assert (strip_prefix dquote (H +:+ tail) = None) as ->.
  { destruct H as [|c H]; [done|]. rewrite string_app_cons.
    cbn [string_forall] in Hcls. apply andb_true_iff in Hcls as [Hc _].
    unfold dquote. cbn [strip_prefix]. by rewrite (quote_not_bare c Hc). }
  rewrite or_else_None_l.
  rewrite matchK_plus_run; [|done|done|by apply boundary_stops|].
  - rewrite consumed_app.
    destruct (boundary_cases tail Ht) as [->|[more ->]]; run_match;
      rewrite ?or_else_Some_l, ?or_else_None_l; eexists _, _; (split; [reflexivity|]);
      by rewrite lookup_insert_ne, lookup_insert_eq.
  - destruct (boundary_cases tail Ht) as [->|[more ->]]; run_match;
      rewrite ?or_else_Some_l, ?or_else_None_l; eauto.
Qed.

Lemma here_heading_quoted body tail :
  body ≠ "" → string_forall quoted_class body = true → at_boundary tail = true →
  found headingRegex ("heading=" +:+ (dquote +:+ body +:+ dquote) +:+ tail)
    (dquote +:+ body +:+ dquote).
Proof.
  intros HH Hcls Ht. apply find_here.
  rewrite !string_app_assoc.
  unfold headingRegex. run_match.
  assert (strip_prefix dquote (dquote +:+ body +:+ dquote +:+ tail)
          = Some (body +:+ dquote +:+ tail)) as -> by done.
  run_match.
  rewrite (matchK_plus_run quoted_class body (dquote +:+ tail));
    [|done|done|reflexivity|].
  - run_match.
    assert (strip_prefix dquote (dquote +:+ tail) = Some tail) as -> by done.
    replace (dquote +:+ body +:+ dquote +:+ tail)
      with ((dquote +:+ body +:+ dquote) +:+ tail)
      by (by rewrite !string_app_assoc).
    rewrite consumed_app.
    destruct (boundary_cases tail Ht) as [->|[more ->]]; run_match;
      rewrite ?or_else_Some_l, ?or_else_None_l; eexists _, _; (split; [reflexivity|]);
      by rewrite lookup_insert_ne, lookup_insert_eq.
  - run_match.
    assert (strip_prefix dquote (dquote +:+ tail) = Some tail) as -> by done.
    destruct (boundary_cases tail Ht) as [->|[more ->]]; run_match;
      rewrite ?or_else_Some_l, ?or_else_None_l; eauto.
Qed.

(** ** Classes *)

Lemma digit_is_order_class c : is_digit c = true → order_class c = true.
Proof. unfold order_class. by intros ->. Qed.

Lemma digit_not_eq c : is_digit c = true → not_eq_sign c = true.
Proof. revert c. intros [[] [] [] [] [] [] [] []]; by vm_compute. Qed.

Lemma bare_not_eq c : bare_class c = true → not_eq_sign c = true.
Proof. revert c. intros [[] [] [] [] [] [] [] []]; by vm_compute. Qed.

Lemma quoted_not_eq c : quoted_class c = true → not_eq_sign c = true.
Proof. revert c. intros [[] [] [] [] [] [] [] []]; by vm_compute. Qed.

Lemma format_not_eq c : format_class c = true → not_eq_sign c = true.
Proof. revert c. intros [[] [] [] [] [] [] [] []]; by vm_compute. Qed.

Lemma quoted_not_quote c :
  quoted_class c = true → negb (contains_byte dquote c) = true.
Proof. revert c. intros [[] [] [] [] [] [] [] []]; by vm_compute. Qed.

Lemma bare_not_quote c :
  bare_class c = true → negb (contains_byte dquote c) = true.
Proof. revert c. intros [[] [] [] [] [] [] [] []]; by vm_compute. Qed.

(** ** The pairs of a valid tag *)

Section ValidTag.
Context (N : string) (h : heading_text) (F : string).
Context (HN : valid_order N) (Hh : valid_heading h) (HF : valid_format F).

Lemma value_no_eq k : string_forall not_eq_sign (value_of N h F k) = true.
Proof.
  destruct HN as (_ & HNd & _), Hh as (_ & Hhc & _), HF as (_ & HFc).
  destruct k; simpl.
  - eauto using string_forall_impl, digit_not_eq.
  - destruct h as [text|body]; simpl in *.
    + eauto using string_forall_impl, bare_not_eq.
    + rewrite !string_forall_app, (string_forall_impl _ _ _ quoted_not_eq Hhc).
      done.
  - eauto using string_forall_impl, format_not_eq.
Qed.

Lemma here_pair k tail :
  at_boundary tail = true →
  found (pattern_of k) (pair_text N h F k +:+ tail) (value_of N h F k).
Proof.
  intros Ht.
  destruct HN as (HNe & HNd & _), Hh as (Hhe & Hhc & _), HF as (HFe & HFc).
  destruct k; simpl; rewrite string_app_assoc.
  - apply here_order; eauto using string_forall_impl, digit_is_order_class.
  - destruct h as [text|body]; simpl in *.
    + by apply here_heading_bare.
    + rewrite <- string_app_assoc. by apply here_heading_quoted.
  - by apply here_format.
Qed.

Lemma tag_of_cons k ks :
  tag_of N h F (k :: ks)
  = pair_text N h F k +:+ match ks with [] => "" | _ => "," +:+ tag_of N h F ks end.
Proof.
  unfold tag_of. destruct ks as [|k' ks]; simpl.
  - by rewrite string_app_empty_r.
  - done.
Qed.

Lemma tail_at_boundary ks :
  at_boundary (match ks with [] => "" | _ => "," +:+ tag_of N h F ks end) = true.
Proof. by destruct ks. Qed.

Lemma found_in_tag k ks :
  k ∈ ks → found (pattern_of k) (tag_of N h F ks) (value_of N h F k).
Proof.
  induction ks as [|k' ks IH]; [by intros ?%elem_of_nil|].
  intros Hin. rewrite tag_of_cons.
  destruct (decide (k = k')) as [<-|Hne].
  - apply here_pair, tail_at_boundary.
  - apply elem_of_cons in Hin as [?|Hin]; [done|].
    unfold found. rewrite find_skip_pair;
      [|done|apply value_no_eq|apply tail_at_boundary].
    destruct ks as [|k'' ks]; [by apply elem_of_nil in Hin|].
    rewrite find_skip_comma. by apply IH.
Qed.

Lemma absent_from_tag k ks :
  k ≠ KOrder → k ∉ ks → find (pattern_of k) (tag_of N h F ks) = None.
Proof.
  intros Hk. induction ks as [|k' ks IH]; intros Hin.
  - by destruct k.
  - apply not_elem_of_cons in Hin as [Hne Hin].
    rewrite tag_of_cons, find_skip_pair;
      [|done|apply value_no_eq|apply tail_at_boundary].
    destruct ks as [|k'' ks]; [by destruct k|].
    rewrite find_skip_comma. by apply IH.
Qed.

End ValidTag.

(** ** From the match to the map of the named groups *)

Lemma submatch_found k s capture :
  found (pattern_of k) s capture →
  at_key (findStringSubmatchMap (pattern_of k) s)
    (match k with KOrder => "order" | KHeading => "heading" | KFormat => "format" end)
  = capture.
Proof.
  intros (whole & caps & Hf & Hc).
  unfold findStringSubmatchMap, FindStringSubmatch. rewrite Hf.
  destruct k; simpl; unfold at_key; rewrite lookup_insert_eq; simpl; by rewrite Hc.
Qed.

Lemma submatch_absent k s name :
  find (pattern_of k) s = None →
  at_key (findStringSubmatchMap (pattern_of k) s) name = "".
Proof.
  intros Hf. unfold findStringSubmatchMap, FindStringSubmatch. by rewrite Hf.
Qed.

(** ** [strconv.Atoi] on a string of digits *)

Lemma digit_val_digit c :
  is_digit c = true → digit_val c = Some (Z.of_nat (code c) - 48) ∧ 0 ≤ Z.of_nat (code c) - 48.
Proof.
  intros Hc. unfold digit_val. rewrite Hc. split; [done|].
  revert c Hc. intros [[] [] [] [] [] [] [] []]; by vm_compute.
Qed.

Lemma decimal_rev_snoc l c :
  decimal_rev (l ++ [c]) = decimal_rev l + 10 ^ Z.of_nat (length l) * (Z.of_nat (code c) - 48).
Proof.
  induction l as [|d l IH]; simpl decimal_rev; simpl length.
  - simpl. lia.
  - rewrite IH, Nat2Z.inj_succ, Z.pow_succ_r by lia. lia.
Qed.

Lemma decimal_cons c s :
  decimal (String c s)
  = (Z.of_nat (code c) - 48) * 10 ^ Z.of_nat (String.length s) + decimal s.
Proof.
  unfold decimal. simpl list_ascii_of_string. rewrite reverse_cons, decimal_rev_snoc.
  rewrite length_reverse.
  assert (length (list_ascii_of_string s) = String.length s) as ->.
  { induction s; simpl; congruence. }
  lia.
Qed.

Lemma decimal_nonneg s : string_forall is_digit s = true → 0 ≤ decimal s.
Proof.
  induction s as [|c s IH]; [done|]. simpl. intros [Hc Hs]%andb_true_iff.
  rewrite decimal_cons. apply digit_val_digit in Hc as [_ Hc].
  specialize (IH Hs). nia.
Qed.

Lemma parse_uint_decimal s n :
  string_forall is_digit s = true →
  0 ≤ n →
  n * 10 ^ Z.of_nat (String.length s) + decimal s ≤ maxUint64 →
  parse_uint s n = (n * 10 ^ Z.of_nat (String.length s) + decimal s, None).
Proof.
  revert n. induction s as [|c s IH]; intros n.
  - intros _ _ _. simpl. f_equal. unfold decimal. simpl. lia.
  - simpl string_forall. intros [Hc Hs]%andb_true_iff Hn.
    rewrite decimal_cons. simpl String.length.
    rewrite Nat2Z.inj_succ, Z.pow_succ_r by lia. intros Hmax.
    pose proof (decimal_nonneg s Hs) as Hdec.
    destruct (digit_val_digit c Hc) as [Hd Hd0].
    set (d := Z.of_nat (code c) - 48) in *.
    assert (0 < 10 ^ Z.of_nat (String.length s)) as Hpow by (apply Z.pow_pos_nonneg; lia).
    assert (n * 10 + d ≤ maxUint64) as Hfit by nia.
    simpl parse_uint. rewrite Hd.
    change (maxUint64 / 10 + 1) with 1844674407370955162.
    change maxUint64 with 18446744073709551615 in *.
    destruct (1844674407370955162 <=? n) eqn:Hcut; [apply Z.leb_le in Hcut; lia|].
    cbv zeta. change (2 ^ 64) with 18446744073709551616.
    rewrite (Z.mod_small (n * 10 + d)) by lia.
    destruct (n * 10 + d <? n * 10) eqn:Hlt; [apply Z.ltb_lt in Hlt; lia|].
    destruct (18446744073709551615 <? n * 10 + d) eqn:Hgt; [apply Z.ltb_lt in Hgt; lia|].
    simpl. rewrite IH by (done || lia). f_equal. lia.
Qed.

Lemma parse_uint_nonneg s n v e :
  0 ≤ n → parse_uint s n = (v, e) → 0 ≤ v.
Proof.
  revert n. induction s as [|c s IH]; intros n Hn; simpl.
  - by intros [= <- _].
  - destruct (digit_val c) as [d|]; [|by intros [= <- _]].
    destruct (maxUint64 / 10 + 1 <=? n); [by intros [= <- _]|].
    destruct ((_ <? _) || (_ <? _)); [by intros [= <- _]|].
    apply IH. apply Z.mod_pos_bound. done.
Qed.

(** A byte of a class of the patterns is no sign. *)
Lemma Atoi_unsigned c s :
  order_class c = true →
  strconv_Atoi (String c s)
  = match strconv_ParseUint (String c s) with
    | (_, Some ErrSyntax) => (0, Some (NumError "Atoi" (String c s) ErrSyntax))
    | (un, _) =>
        if 2 ^ (intSize - 1) <=? un
        then (2 ^ (intSize - 1) - 1, Some (NumError "Atoi" (String c s) ErrRange))
        else (un, None)
    end.
Proof.
  intros Hc. unfold strconv_Atoi.
  assert (match String c s with
          | String "+" rest => (false, rest)
          | String "-" rest => (true, rest)
          | _ => (false, String c s)
          end = (false, String c s)) as ->.
  { clear -Hc. revert c Hc. intros [[] [] [] [] [] [] [] []]; by vm_compute. }
  destruct (strconv_ParseUint (String c s)) as [un [[]|]]; try done.
Qed.

Lemma Atoi_digits N : valid_order N → strconv_Atoi N = (decimal N, None).
Proof.
  intros (Hne & Hd & Hmax). destruct N as [|c N]; [done|].
  pose proof (decimal_nonneg _ Hd) as Hpos.
  rewrite Atoi_unsigned.
  2:{ simpl in Hd. apply andb_true_iff in Hd as [Hc _]. by apply digit_is_order_class. }
  unfold strconv_ParseUint. unfold maxInt, intSize in Hmax. simpl in Hmax.
  rewrite parse_uint_decimal; [|done|done|].
  - rewrite Z.mul_0_l, Z.add_0_l. unfold intSize.
    destruct (2 ^ (64 - 1) <=? decimal (String c N)) eqn:H1; [|done].
    apply Z.leb_le in H1. lia.
  - rewrite Z.mul_0_l, Z.add_0_l. unfold maxUint64. lia.
Qed.

(** ** Trimming *)

Lemma trim_left_keeps p s :
  stops p s = true → trim_left p s = s.
Proof. destruct s as [|c s]; [done|]. simpl. by intros ->%negb_true_iff. Qed.

Lemma trim_right_keeps p s q :
  string_forall (λ c, negb (p c)) s = true → s ≠ "" → p q = true →
  trim_right p (s +:+ String q "") = s.
Proof.
  intros Hs Hne Hq. induction s as [|c s IH]; [done|].
  simpl in Hs. apply andb_true_iff in Hs as [Hc Hs].
  rewrite string_app_cons. simpl trim_right.
  destruct s as [|d s].
  - rewrite string_app_nil. simpl. rewrite Hq. apply negb_true_iff in Hc.
    by rewrite Hc.
  - by rewrite IH.
Qed.

Lemma trim_right_none p s :
  string_forall (λ c, negb (p c)) s = true → trim_right p s = s.
Proof.
  induction s as [|c s IH]; [done|]. simpl. intros [Hc Hs]%andb_true_iff.
  rewrite IH by done. destruct s; [|done]. apply negb_true_iff in Hc.
  by rewrite Hc.
Qed.

Lemma Trim_written h :
  valid_heading h → strings_Trim (written h) dquote = content h.
Proof.
  intros (Hne & Hcls & _). unfold strings_Trim.
  destruct h as [text|body]; cbn [written content] in *.
  - apply (string_forall_impl _ _ _ bare_not_quote) in Hcls.
    rewrite trim_left_keeps.
    + by apply trim_right_none.
    + destruct text as [|c text]; [done|]. cbn [string_forall stops] in *.
      by apply andb_true_iff in Hcls as [-> _].
  - apply (string_forall_impl _ _ _ quoted_not_quote) in Hcls.
    assert (∀ s, trim_left (contains_byte dquote) (dquote +:+ s)
                 = trim_left (contains_byte dquote) s) as -> by reflexivity.
    rewrite trim_left_keeps.
    + by apply trim_right_keeps.
    + destruct body as [|c body]; [done|]. rewrite string_app_cons.
      cbn [string_forall stops] in *.
      by apply andb_true_iff in Hcls as [-> _].
Qed.


(** ** The sheet *)

Lemma AddCell_last sheet row value :
  AddCell (sheet ++ [row]) value = sheet ++ [row ++ [value]].
Proof.
  unfold AddCell. rewrite length_app, Nat.add_1_r.
  induction sheet as [|r sheet IH]; [done|]. simpl. by f_equal.
Qed.

Lemma writeRow_appends data sheet : writeRow data sheet = (Ok tt, sheet ++ [data]).
Proof.
  unfold writeRow, AddRow. f_equal. f_equal.
  change data with ([] ++ data) at 2. generalize (@nil string) as row.
  induction data as [|v data IH]; intros row; simpl.
  - by rewrite app_nil_r.
  - rewrite AddCell_last, IH. by rewrite <- app_assoc.
Qed.

Lemma headings_filled (pre : list string) (opts : list parseOpts) :
  foldl (λ data '(key, opt), <[key := heading opt]> data)
    (pre ++ replicate (length opts) "") (imap (λ i o, (length pre + i, o)%nat) opts)
  = pre ++ (heading <$> opts).
Proof.
  revert pre. induction opts as [|o opts IH]; intros pre; [done|].
  simpl. rewrite Nat.add_0_r, insert_app_r_alt, Nat.sub_diag by lia. simpl.
  rewrite !(cons_middle (heading o) pre), !app_assoc.
  etrans; [|exact (IH (pre ++ [heading o]))]. f_equal.
  apply imap_ext. intros i x _. simpl. rewrite length_app. simpl. f_equal. lia.
Qed.

Lemma writeHeadingFromOpts_appends opts sheet :
  writeHeadingFromOpts opts sheet = (Ok tt, sheet ++ [heading <$> opts]).
Proof.
  unfold writeHeadingFromOpts. rewrite writeRow_appends. do 4 f_equal.
  apply (headings_filled [] opts).
Qed.

(** ** The fields of the struct *)

Lemma getParseOptions_from_collect data a n acc :
  Reflect.TKind data = Reflect.Struct →
  (a + n)%nat = length (Reflect.TFields data) →
  getParseOptions_from data (seq a n) acc = Ok (collect (drop a (Reflect.TFields data)) acc).
Proof.
  intros Hk. revert a acc. induction n as [|n IH]; intros a acc Hlen.
  - rewrite drop_ge by lia. done.
  - destruct (lookup_lt_is_Some_2 (Reflect.TFields data) a) as [f Hf]; [lia|].
    rewrite (drop_S _ _ _ Hf). simpl. unfold Type_Field. rewrite Hk, Hf. simpl.
    fold (xls_tag f). fold (skipped (xls_tag f)).
    destruct (skipped (xls_tag f)); [apply IH; lia|].
    destruct (parseOptFromTag (xls_tag f)) as [opt [err|]]; [done|].
    apply IH. lia.
Qed.

Lemma getParseOptions_collect data :
  Reflect.TKind data = Reflect.Struct →
  getParseOptions data = Ok (collect (Reflect.TFields data) []).
Proof.
  intros Hk. unfold getParseOptions, Type_NumField. rewrite Hk. simpl.
  by rewrite getParseOptions_from_collect.
Qed.

Lemma getParseOptions_struct data r :
  getParseOptions data = Ok r → Reflect.TKind data = Reflect.Struct.
Proof.
  unfold getParseOptions, Type_NumField.
  by destruct (Reflect.TKind data).
Qed.

(** ** What [collect] returns *)

Lemma collect_ok fields acc opts :
  collect fields acc = (opts, None) →
  opts = acc ++ omap column_of fields
  ∧ ∀ f, f ∈ fields → skipped (xls_tag f) = false →
         ∃ opt, parseOptFromTag (xls_tag f) = (opt, None).
Proof.
  revert acc. induction fields as [|f fields IH]; intros acc; simpl.
  - intros [= <-]. split; [by rewrite app_nil_r|]. by intros f ?%elem_of_nil.
  - unfold column_of at 1. destruct (skipped (xls_tag f)) eqn:Hs.
    + intros [-> Hall]%IH. split; [done|].
      intros f' [->|?]%elem_of_cons; [congruence|eauto].
    + destruct (parseOptFromTag (xls_tag f)) as [opt [err|]] eqn:Hp; [done|].
      intros [-> Hall]%IH. split; [by rewrite <- app_assoc|].
      intros f' [->|?]%elem_of_cons; eauto.
Qed.

Lemma collect_error fields acc opts err :
  collect fields acc = (opts, Some err) →
  opts = [] ∧
  ∃ before f after,
    fields = before ++ f :: after
    ∧ Forall (λ g, skipped (xls_tag g) = true ∨ is_Some (column_of g)) before
    ∧ skipped (xls_tag f) = false
    ∧ (parseOptFromTag (xls_tag f)).2 = Some err.
Proof.
  revert acc. induction fields as [|f fields IH]; intros acc; simpl; [done|].
  destruct (skipped (xls_tag f)) eqn:Hs.
  - intros (-> & before & g & after & -> & Hb & Hg & He)%IH. split; [done|].
    exists (f :: before), g, after. split_and!; auto.
  - destruct (parseOptFromTag (xls_tag f)) as [opt [err'|]] eqn:Hp.
    + intros [= <- <-]. split; [done|]. exists [], f, fields.
      split_and!; auto. by rewrite Hp.
    + intros (-> & before & g & after & -> & Hb & Hg & He)%IH. split; [done|].
      exists (f :: before), g, after. split_and!; auto.
      constructor; [|done]. right. unfold column_of. by rewrite Hs, Hp.
Qed.

(** Two fields with the same column specification are one field, when no
    two columns share an order. *)
Lemma column_of_inj fields j j' f f' opt opt' :
  NoDup (order <$> omap column_of fields) →
  fields !! j = Some f → fields !! j' = Some f' →
  column_of f = Some opt → column_of f' = Some opt' →
  order opt = order opt' → j = j'.
Proof.
  revert j j'. induction fields as [|g fields IH]; intros j j' Hnd Hj Hj' Hf Hf' Ho;
    [done|].
  assert (∀ i h o, fields !! i = Some h → column_of h = Some o →
                   order o ∈ order <$> omap column_of fields) as Hin.
  { intros i h o Hi Hh. apply list_elem_of_fmap. exists o. split; [done|].
    apply list_elem_of_omap. exists h. split; [|done]. by eapply list_elem_of_lookup_2. }
  simpl in Hnd.
  destruct j as [|j], j' as [|j']; simpl in *; simplify_eq; [done|..].
  - rewrite Hf in Hnd. simpl in Hnd. apply NoDup_cons in Hnd as [Hnot _].
    destruct Hnot. rewrite Ho. eauto.
  - rewrite Hf' in Hnd. simpl in Hnd. apply NoDup_cons in Hnd as [Hnot _].
    destruct Hnot. rewrite <- Ho. eauto.
  - f_equal. eapply IH; eauto.
    destruct (column_of g); [|done]. simpl in Hnd. by apply NoDup_cons in Hnd as [_ ?].
Qed.

(** ** The positions of the cells *)

Lemma cell_positions_from (opts : list parseOpts) (m : gmap Z nat) (k : nat) :
  NoDup (order <$> opts) →
  let m' := foldl (λ (m : gmap Z nat) '(i, opt), <[order opt := i]> m) m
              (imap (λ i o, (k + i, o)%nat) opts) in
  (∀ i opt, opts !! i = Some opt → m' !! order opt = Some (k + i)%nat)
  ∧ (∀ key, key ∉ order <$> opts → m' !! key = m !! key).
Proof.
  revert m k. induction opts as [|o opts IH]; intros m k Hnd; simpl.
  - split; [by intros ???|done].
  - simpl in Hnd. apply NoDup_cons in Hnd as [Hnot Hnd].
    rewrite (imap_ext _ (λ i o, (S k + i, o)%nat) opts)
      by (intros; simpl; f_equal; lia).
    destruct (IH (<[order o := (k + 0)%nat]> m) (S k) Hnd) as [IH1 IH2].
    split.
    + intros [|i] opt Hi; simpl in Hi.
      * injection Hi as <-. rewrite IH2 by done. by rewrite lookup_insert_eq.
      * rewrite (IH1 i opt Hi). f_equal. lia.
    + intros key Hkey. apply not_elem_of_cons in Hkey as [Hne Hkey].
      rewrite IH2 by done. by rewrite lookup_insert_ne.
Qed.

Lemma cell_positions_lookup opts i opt :
  NoDup (order <$> opts) → opts !! i = Some opt →
  cell_positions opts !! order opt = Some i.
Proof.
  intros Hnd Hi. unfold cell_positions.
  by destruct (cell_positions_from opts ∅ 0 Hnd) as [H1 _]; apply (H1 i opt Hi).
Qed.

Lemma column_of_order f opt :
  column_of f = Some opt →
  skipped (xls_tag f) = false ∧ parseOptFromTag (xls_tag f) = (opt, None)
  ∧ (orderFromTag (xls_tag f)).1 = order opt.
Proof.
  unfold column_of. destruct (skipped (xls_tag f)); [done|].
  destruct (parseOptFromTag (xls_tag f)) as [o [e|]] eqn:Hp; [done|].
  intros [= ->]. split_and!; [done..|].
  unfold parseOptFromTag in Hp.
  destruct (orderFromTag (xls_tag f)) as [n [e|]]; [done|].
  destruct (headingFromTag (xls_tag f)) as [hd [e|]]; [done|].
  by injection Hp as <-.
Qed.

Lemma bind_Ok {A B} (a : A) (k : A → Result B) : (x ← Ok a; k x) = k a.
Proof. reflexivity. Qed.

Lemma bind_lift_Ok {A B} (a : A) (k : A → M B) sheet :
  (x ← lift (Ok a); k x) sheet = k a sheet.
Proof. reflexivity. Qed.

Section Rows.
Context {rt : Runtime}.
Context (it : Reflect.rtype) (sorted : list parseOpts).
Context (Hstruct : Reflect.TKind it = Reflect.Struct).
Context (Hnodup : NoDup (order <$> sorted)).
Context (Hperm : sorted ≡ₚ omap column_of (Reflect.TFields it)).
Context (Hparse : ∀ f, f ∈ Reflect.TFields it → skipped (xls_tag f) = false →
                       is_Some (column_of f)).
Context (Hexported : ∀ f, f ∈ Reflect.TFields it → skipped (xls_tag f) = false →
                          Reflect.PkgPath f = "").

Lemma cell_inj fvs j j' pos text text' :
  cell it sorted fvs j pos text → cell it sorted fvs j' pos text' → j = j'.
Proof.
  intros (f & opt & val & Hf & Hc & Hs & _) (f' & opt' & val' & Hf' & Hc' & Hs' & _).
  rewrite Hs in Hs'. injection Hs' as <-.
  eapply (column_of_inj (Reflect.TFields it)); eauto.
  by rewrite <- Hperm.
Qed.

Lemma writeField_skipped fvs values j f :
  Reflect.TFields it !! j = Some f → skipped (xls_tag f) = true →
  writeField sorted (cell_positions sorted) (VStruct it fvs) values j = Ok values.
Proof.
  intros Hf Hs. unfold writeField, Value_Type, Type_Field. simpl.
  rewrite Hstruct, Hf. simpl. fold (xls_tag f). fold (skipped (xls_tag f)).
  by rewrite Hs.
Qed.

Lemma writeField_column fvs values j f opt val text :
  Reflect.TFields it !! j = Some f → column_of f = Some opt →
  fvs !! j = Some val → length values = length sorted →
  render opt val = Ok text →
  ∃ pos, sorted !! pos = Some opt
         ∧ writeField sorted (cell_positions sorted) (VStruct it fvs) values j
           = Ok (<[pos := text]> values).
Proof.
  intros Hf Hc Hv Hlen Hr.
  destruct (column_of_order f opt Hc) as (Hs & Hp & Ho).
  assert (opt ∈ sorted) as [pos Hpos]%list_elem_of_lookup_1.
  { rewrite Hperm. apply list_elem_of_omap. exists f. split; [|done].
    by eapply list_elem_of_lookup_2. }
  exists pos. split; [done|].
  unfold writeField, Value_Type, Type_Field, Value_Field, Type_Field. simpl.
  rewrite Hstruct, Hf. simpl. fold (xls_tag f). fold (skipped (xls_tag f)).
  rewrite Hs. destruct (orderFromTag (xls_tag f)) as [n e] eqn:Hn.
  simpl in Ho. subst n.
  rewrite (cell_positions_lookup sorted pos opt Hnodup Hpos). simpl.
  unfold index. rewrite Hpos. simpl. rewrite Hv.
  rewrite (Hexported f) by (by eauto using list_elem_of_lookup_2). simpl.
  rewrite Hr. simpl.
  unfold set_index. rewrite decide_True; [done|].
  rewrite Hlen. by eapply lookup_lt_Some.
Qed.

Lemma fields_written fvs (js : list nat) (values : list string) :
  NoDup js →
  (∀ j, j ∈ js → (j < length (Reflect.TFields it))%nat) →
  length fvs = length (Reflect.TFields it) →
  renders (Reflect.TFields it) sorted fvs →
  length values = length sorted →
  ∃ values',
    foldR (writeField sorted (cell_positions sorted) (VStruct it fvs)) values js
    = Ok values'
    ∧ length values' = length sorted
    ∧ (∀ j pos text, j ∈ js → cell it sorted fvs j pos text → values' !! pos = Some text)
    ∧ (∀ pos, (∀ j text, j ∈ js → ¬ cell it sorted fvs j pos text) →
              values' !! pos = values !! pos).
Proof.
  intros Hnd. revert values. induction Hnd as [|j js Hj Hnd IH];
    intros values Hjs Hfvs Hren Hlen.
  - exists values. split_and!; [done..| |done]. by intros ??? ?%elem_of_nil.
  - destruct (lookup_lt_is_Some_2 (Reflect.TFields it) j) as [f Hf].
    { apply Hjs. by left. }
    destruct (lookup_lt_is_Some_2 fvs j) as [val Hv].
    { rewrite Hfvs. by eapply lookup_lt_Some. }
    assert (∀ j', j' ∈ js → (j' < length (Reflect.TFields it))%nat) as Hjs'.
    { intros j' ?. apply Hjs. by right. }
    simpl. destruct (skipped (xls_tag f)) eqn:Hs.
    + rewrite (writeField_skipped fvs values j f Hf Hs). simpl.
      destruct (IH values Hjs' Hfvs Hren Hlen) as (values' & Hrun & Hlen' & Hin & Hout).
      exists values'. split_and!; [done..| |].
      * intros j' pos text [->|Hj']%elem_of_cons Hcell; [|eauto].
        destruct Hcell as (f' & opt & _ & Hf' & Hc & _).
        rewrite Hf in Hf'. injection Hf' as <-.
        apply column_of_order in Hc as [Hs' _]. congruence.
      * intros pos Hpos. apply Hout. intros j' text ?. apply Hpos. by right.
    + destruct (Hparse f) as [opt Hc]; [by eapply list_elem_of_lookup_2|done|].
      destruct (Hren j f opt opt val) as [text Hr]; [done|done| |done|done|].
      { rewrite Hperm. apply list_elem_of_omap. exists f. split; [|done].
        by eapply list_elem_of_lookup_2. }
      destruct (writeField_column fvs values j f opt val text Hf Hc Hv Hlen Hr)
        as (pos & Hpos & ->). simpl.
      destruct (IH (<[pos := text]> values) Hjs' Hfvs Hren)
        as (values' & Hrun & Hlen' & Hin & Hout); [by rewrite length_insert|].
      assert (cell it sorted fvs j pos text) as Hcellj.
      { by exists f, opt, val. }
      exists values'. split_and!; [done..| |].
      * intros j' pos' text' [->|Hj']%elem_of_cons Hcell; [|eauto].
        destruct Hcell as (f' & opt' & val' & Hf' & Hc' & Hpos' & Hv' & Hr').
        simplify_eq.
        assert (text' = text) as -> by congruence.
        assert (pos' = pos) as ->.
        { eapply NoDup_lookup; [|exact Hpos'|exact Hpos].
          eapply NoDup_fmap_1, Hnodup. }
        rewrite Hout.
        -- apply list_lookup_insert_eq. rewrite Hlen. by eapply lookup_lt_Some.
        -- intros j' text2 Hj' Hcell'.
           assert (j' = j) as -> by (eapply cell_inj; eauto). done.
      * intros pos' Hpos'. rewrite Hout.
        -- apply list_lookup_insert_ne. intros <-.
           eapply (Hpos' j); [by left|done].
        -- intros j' text2 ?. apply Hpos'. by right.
Qed.

End Rows.

Section Items.
Context {rt : Runtime}.
Context (it : Reflect.rtype) (sorted : list parseOpts).
Context (Hstruct : Reflect.TKind it = Reflect.Struct).
Context (Hnodup : NoDup (order <$> sorted)).
Context (Hperm : sorted ≡ₚ omap column_of (Reflect.TFields it)).
Context (Hparse : ∀ f, f ∈ Reflect.TFields it → skipped (xls_tag f) = false →
                       is_Some (column_of f)).
Context (Hexported : ∀ f, f ∈ Reflect.TFields it → skipped (xls_tag f) = false →
                          Reflect.PkgPath f = "").

Lemma writeItem_row t items values i fvs sheet :
  items !! i = Some (VStruct it fvs) →
  length fvs = length (Reflect.TFields it) →
  renders (Reflect.TFields it) sorted fvs →
  length values = length sorted →
  ∃ row,
    writeItem sorted (cell_positions sorted) (VList t items) values i sheet
    = (Ok row, sheet ++ [row])
    ∧ length row = length sorted
    ∧ ∀ j pos text, cell it sorted fvs j pos text → row !! pos = Some text.
Proof.
  intros Hi Hfvs Hren Hlen.
  destruct (fields_written it sorted Hstruct Hnodup Hperm Hparse Hexported fvs
              (seq 0 (length (Reflect.TFields it))) values)
    as (row & Hrun & Hlen' & Hin & _); [apply NoDup_seq| |done..|].
  { intros j Hj%elem_of_seq. lia. }
  exists row. split_and!; [|done|].
  - unfold writeItem, Value_Index, Value_NumField, Value_Type, Type_NumField.
    rewrite Hi, bind_lift_Ok. cbn [reflect_TypeOf]. rewrite bind_Ok, Hstruct.
    rewrite bind_lift_Ok, Hrun, bind_lift_Ok.
    unfold mbind, M_bind. by rewrite writeRow_appends.
  - intros j pos text Hcell. apply (Hin j); [|done].
    destruct Hcell as (f & _ & _ & Hf & _). apply elem_of_seq.
    apply lookup_lt_Some in Hf. lia.
Qed.

Lemma items_written t items (indices : list nat) values sheet :
  (∀ i, i ∈ indices → ∃ fvs, items !! i = Some (VStruct it fvs)
                            ∧ length fvs = length (Reflect.TFields it)
                            ∧ renders (Reflect.TFields it) sorted fvs) →
  length values = length sorted →
  ∃ rows values',
    foldM (writeItem sorted (cell_positions sorted) (VList t items)) values indices sheet
    = (Ok values', sheet ++ rows)
    ∧ length rows = length indices
    ∧ ∀ k i fvs, indices !! k = Some i → items !! i = Some (VStruct it fvs) →
        ∃ row, rows !! k = Some row ∧ length row = length sorted
               ∧ ∀ j pos text, cell it sorted fvs j pos text → row !! pos = Some text.
Proof.
  revert values sheet. induction indices as [|i indices IH]; intros values sheet Hall Hlen.
  - exists [], values. split_and!; [by rewrite app_nil_r|done|done].
  - destruct (Hall i) as (fvs & Hi & Hfvs & Hren); [by left|].
    destruct (writeItem_row t items values i fvs sheet Hi Hfvs Hren Hlen)
      as (row & Hrun & Hlen' & Hrow).
    destruct (IH row (sheet ++ [row])) as (rows & values' & Hrest & Hlenr & Hrows);
      [by intros; apply Hall; right|done|].
    exists (row :: rows), values'. split_and!.
    + simpl. unfold mbind, M_bind at 1. rewrite Hrun, Hrest.
      by rewrite <- app_assoc.
    + simpl. by rewrite Hlenr.
    + intros [|k] i' fvs' Hk Hi'; simpl in Hk.
      * simplify_eq. exists row. by split_and!.
      * by apply (Hrows k i' fvs').
Qed.

End Items.

Lemma strictly_sorted (l : list parseOpts) :
  StronglySorted in_order l → NoDup (order <$> l) →
  StronglySorted (λ a b, order a < order b) l.
Proof.
  induction 1 as [|a l Hl IH Ha]; [constructor|].
  simpl. intros [Hnot Hnd]%NoDup_cons. constructor; [auto|].
  apply Forall_forall. intros b Hb.
  assert (order a ≠ order b).
  { intros Heq. apply Hnot. rewrite Heq. by apply list_elem_of_fmap_2. }
  rewrite Forall_forall in Ha. specialize (Ha b Hb).
  unfold in_order, Less in Ha. apply Z.ltb_ge in Ha. lia.
Qed.

(** ** The insertion sort keeps the contract of [sort.Sort] *)

Lemma insert_back_perm x before : insert_back x before ≡ₚ x :: before.
Proof.
  induction before as [|y before IH]; simpl; [done|].
  destruct (Less x y); [|done]. rewrite IH. apply Permutation_swap.
Qed.

Lemma sorting_perm l before :
  foldl (λ before x, insert_back x before) before l ≡ₚ l ++ before.
Proof.
  revert before. induction l as [|x l IH]; intros before; simpl; [done|].
  rewrite IH, insert_back_perm. by rewrite Permutation_middle.
Qed.

Lemma insertionSort_perm l : insertionSort l ≡ₚ l.
Proof.
  unfold insertionSort. by rewrite reverse_Permutation, sorting_perm, app_nil_r.
Qed.

(** The sorted part in reverse: no element is [Less] than one after it. *)
Lemma insert_back_sorted x before :
  StronglySorted (flip in_order) before →
  StronglySorted (flip in_order) (insert_back x before).
Proof.
  induction 1 as [|y before Hs IH Hy]; simpl.
  - repeat constructor.
  - destruct (Less x y) eqn:Hxy.
    + constructor; [done|]. rewrite insert_back_perm. constructor; [|done].
      unfold flip, in_order, Less in *. apply Z.ltb_lt in Hxy. apply Z.ltb_ge. lia.
    + constructor; [by constructor|]. constructor; [done|].
      eapply Forall_impl; [exact Hy|]. intros b Hb.
      unfold flip, in_order, Less in *. apply Z.ltb_ge in Hxy, Hb. apply Z.ltb_ge. lia.
Qed.

Lemma sorting_sorted l before :
  StronglySorted (flip in_order) before →
  StronglySorted (flip in_order) (foldl (λ before x, insert_back x before) before l).
Proof.
  revert before. induction l as [|x l IH]; intros before Hs; simpl; [done|].
  by apply IH, insert_back_sorted.
Qed.

Lemma reverse_sorted (l : list parseOpts) :
  StronglySorted (flip in_order) l → StronglySorted in_order (reverse l).
Proof.
  induction 1 as [|x l Hs IH Hx]; [constructor|].
  rewrite reverse_cons, StronglySorted_app. split_and!.
  - intros a b Ha Hb%list_elem_of_singleton. subst b.
    rewrite elem_of_reverse in Ha.
    rewrite Forall_forall in Hx. exact (Hx a Ha).
  - done.
  - repeat constructor.
Qed.

Lemma insertionSort_sorted l : StronglySorted in_order (insertionSort l).
Proof. apply reverse_sorted, sorting_sorted. constructor. Qed.

(** ** Tags that do not parse *)




(** ** The test of the type in [WriteToSheet] *)

(** [marshallerType] is the nil [Type], and [Implements] panics on it. *)
Lemma Implements_marshallerType t :
  Type_Implements t marshallerType
  = Panic "reflect: nil type passed to Type.Implements".
Proof. reflexivity. Qed.

(** On a slice or an array of structs, [WriteToSheet] gets as far as the
    test of the type against [marshallerType]. *)
Lemma WriteToSheet_tests_the_type {rt : Runtime} data t itemsType sheet :
  reflect_TypeOf data = Some t →
  Reflect.TKind t = Reflect.Slice ∨ Reflect.TKind t = Reflect.Array →
  Reflect.TElem t = Some itemsType →
  Reflect.TKind itemsType = Reflect.Struct →
  WriteToSheet data sheet
  = (b ← lift (Type_Implements t marshallerType);
     if b : bool then writeWithMarshaller data else writeWithTags data) sheet.
Proof.
  intros Ht Hkind Helem Hstruct.
  unfold WriteToSheet, Value_Kind, reflect_ValueOf, getListType, Value_Type, Type_Elem,
    Type_Kind.
  rewrite Ht, Helem.
  destruct Hkind as [Hk|Hk]; rewrite Hk; simpl; rewrite bind_lift_Ok, Hstruct; done.
Qed.

Lemma writeRows_appends (rows : list (list string)) sheet :
  foldM (λ _ row, writeRow row) tt rows sheet = (Ok tt, sheet ++ rows).
Proof.
  revert sheet. induction rows as [|row rows IH]; intros sheet; simpl.
  - by rewrite app_nil_r.
  - unfold mbind, M_bind at 1. rewrite writeRow_appends, IH.
    by rewrite <- app_assoc.
Qed.

(** ** A tag without a key *)

Lemma find_without_key k s :
  occurs (literal_of k) s = false →
  find (pattern_of k) s
  = match k with KOrder => Some ("", ∅) | _ => None end.
Proof.
  induction s as [|c s IH]; intros Hocc.
  - by destruct k.
  - simpl in Hocc.
    destruct (strip_prefix (literal_of k) (String c s)) eqn:Hp; [done|].
    rewrite find_step by (by apply needs_literal). by apply IH.
Qed.

(** ** What a match captures *)

Lemma matchK_plus_result {R} p s caps (k : string → gmap nat string → option R) r :
  matchK (PlusClass p) s caps k = Some r →
  ∃ body rest, s = body +:+ rest ∧ body ≠ "" ∧ string_forall p body = true
               ∧ k rest caps = Some r.
Proof.
  induction s as [|c s IH]; [done|].
  rewrite matchK_plus_cons. destruct (p c) eqn:Hc; [|done].
  destruct (matchK (PlusClass p) s caps k) as [r'|] eqn:Hm; simpl.
  - intros [= ->]. destruct (IH eq_refl) as (body & rest & -> & Hne & Hall & Hk).
    exists (String c body), rest. split_and!; [done|done| |done].
    simpl. by rewrite Hc, Hall.
  - intros Hk. exists (String c ""), s. split_and!; [done|done| |done].
    simpl. by rewrite Hc.
Qed.

Lemma find_unfold r s :
  find r s
  = match matchK r s ∅ (λ rest caps, Some (consumed s rest, caps)) with
    | Some m => Some m
    | None => match s with String _ rest => find r rest | EmptyString => None end
    end.
Proof. by destruct s. Qed.

(** A match found in [s] is a match at some place of [s]. *)
Lemma find_Some r s m :
  find r s = Some m →
  ∃ s', matchK r s' ∅ (λ rest caps, Some (consumed s' rest, caps)) = Some m.
Proof.
  induction s as [|c s IH]; rewrite find_unfold.
  - destruct (matchK r "" ∅ _) eqn:Hm; [|done]. intros [= <-]. eauto.
  - destruct (matchK r (String c s) ∅ _) eqn:Hm; [|done]. intros [= <-]. eauto.
Qed.

Lemma order_capture_class s whole caps cap :
  find orderRegex s = Some (whole, caps) → caps !! 1%nat = Some cap →
  string_forall order_class cap = true.
Proof.
  intros (s' & Hm)%find_Some Hc.
  unfold orderRegex in Hm. rewrite matchK_Alt, matchK_Cat, matchK_Lit in Hm.
  destruct (strip_prefix "order=" s') as [rest|].
  - rewrite matchK_Cat, matchK_Group in Hm.
    destruct (matchK (PlusClass order_class) rest ∅ _) as [m|] eqn:Hrun.
    + rewrite or_else_Some_l in Hm. injection Hm as ->.
      apply matchK_plus_result in Hrun as (body & rest' & -> & _ & Hall & Hk).
      rewrite consumed_app, matchK_Quest, matchK_Lit in Hk.
      destruct (strip_prefix "," rest'); simpl in Hk; injection Hk as _ <-;
        rewrite lookup_insert_eq in Hc; by injection Hc as <-.
    + rewrite or_else_None_l, matchK_EndText in Hm.
      destruct s'; [|done]. injection Hm as _ <-. by rewrite lookup_empty in Hc.
  - rewrite or_else_None_l, matchK_EndText in Hm.
    destruct s'; [|done]. injection Hm as _ <-. by rewrite lookup_empty in Hc.
Qed.

(** ** [strconv.Atoi] on what [orderRegex] captures *)

Lemma Atoi_order_class cap n :
  string_forall order_class cap = true →
  strconv_Atoi cap = (n, None) → 0 ≤ n ≤ maxInt.
Proof.
  intros Hcls. destruct cap as [|c cap]; [done|].
  simpl in Hcls. apply andb_true_iff in Hcls as [Hc _].
  rewrite (Atoi_unsigned c cap Hc). unfold strconv_ParseUint.
  destruct (parse_uint (String c cap) 0) as [un e] eqn:Hun.
  apply parse_uint_nonneg in Hun; [|done].
  assert ((if 2 ^ (intSize - 1) <=? un
           then (2 ^ (intSize - 1) - 1, Some (NumError "Atoi" (String c cap) ErrRange))
           else (un, None)) = (n, None) → 0 ≤ n ≤ maxInt) as Hfits.
  { destruct (2 ^ (intSize - 1) <=? un) eqn:H1; [done|].
    intros [= <-]. apply Z.leb_gt in H1. unfold maxInt. lia. }
  destruct e as [[]|]; [done|exact Hfits|exact Hfits].
Qed.

(** ** The names [findStringSubmatchMap] keeps *)

Lemma named_captures_keys (match_ : list string) (names : list (nat * string))
    (m : gmap string string) name v :
  foldl (λ (captures : gmap string string) '(i, name),
           if (i =? 0)%nat || String.eqb name ""
           then captures
           else <[name := default "" (match_ !! i)]> captures) m names !! name = Some v →
  m !! name = Some v ∨ (name ≠ "" ∧ ∃ i, (i, name) ∈ names ∧ i ≠ 0%nat).
Proof.
  revert m. induction names as [|[i n] names IH]; intros m; simpl; [by left|].
  intros [Hm|(Hne & j & Hj & Hj0)]%IH.
  - destruct ((i =? 0)%nat || String.eqb n "") eqn:Hskip; [by left|].
    apply orb_false_iff in Hskip as [Hi Hn].
    apply Nat.eqb_neq in Hi. apply String.eqb_neq in Hn.
    destruct (decide (n = name)) as [->|Hnn].
    + right. split; [done|]. exists i. split; [by left|done].
    + left. by rewrite lookup_insert_ne in Hm.
  - right. split; [done|]. exists j. split; [by right|done].
Qed.

(** ** The positions of the cells, whatever the orders *)

Lemma cell_positions_from_any (opts : list parseOpts) (m : gmap Z nat) (k : nat) key :
  let m' := foldl (λ (m : gmap Z nat) '(i, opt), <[order opt := i]> m) m
              (imap (λ i o, (k + i, o)%nat) opts) in
  (key ∈ order <$> opts →
   ∃ i o, m' !! key = Some (k + i)%nat ∧ opts !! i = Some o ∧ order o = key
          ∧ ∀ i' o', opts !! i' = Some o' → order o' = key → (i' ≤ i)%nat)
  ∧ (key ∉ order <$> opts → m' !! key = m !! key).
Proof.
  revert m k. induction opts as [|o opts IH]; intros m k; simpl.
  - split; [by intros ?%elem_of_nil|done].
  - rewrite (imap_ext _ (λ i o, (S k + i, o)%nat) opts)
      by (intros; simpl; f_equal; lia).
    destruct (IH (<[order o := (k + 0)%nat]> m) (S k)) as [IH1 IH2].
    destruct (decide (key ∈ order <$> opts)) as [Hin|Hnin].
    + split; [|by intros [_ ?]%not_elem_of_cons].
      intros _. destruct (IH1 Hin) as (i & o' & Hm & Hi & Ho & Hlast).
      exists (S i), o'. split_and!; [|done..|].
      * rewrite Hm. f_equal. lia.
      * intros [|i'] o'' Hi' Ho'; simpl in Hi'; [lia|].
        specialize (Hlast i' o'' Hi' Ho'). lia.
    + split.
      * intros [->|?]%elem_of_cons; [|done].
        exists 0%nat, o. split_and!; [|done..|].
        -- rewrite IH2 by done. by rewrite lookup_insert_eq.
        -- intros [|i'] o' Hi' Ho'; simpl in Hi'; [lia|].
           destruct Hnin. rewrite <- Ho'. apply list_elem_of_fmap_2.
           by eapply list_elem_of_lookup_2.
      * intros [Hne _]%not_elem_of_cons. rewrite IH2 by done.
        by rewrite lookup_insert_ne.
Qed.

Lemma cell_positions_last opts key i :
  cell_positions opts !! key = Some i
  ↔ ∃ o, opts !! i = Some o ∧ order o = key
         ∧ ∀ i' o', opts !! i' = Some o' → order o' = key → (i' ≤ i)%nat.
Proof.
  destruct (cell_positions_from_any opts ∅ 0 key) as [H1 H2]. cbv zeta in H1, H2.
  change (foldl _ ∅ _) with (cell_positions opts) in H1, H2.
  split.
  - intros Hm. destruct (decide (key ∈ order <$> opts)) as [Hin|Hnin].
    + destruct (H1 Hin) as (i0 & o & Hm0 & Hi & Ho & Hlast).
      rewrite Hm in Hm0. injection Hm0 as ->. eauto.
    + by rewrite (H2 Hnin), lookup_empty in Hm.
  - intros (o & Hi & Ho & Hlast).
    destruct H1 as (i0 & o0 & Hm0 & Hi0 & Ho0 & Hlast0).
    { rewrite <- Ho. apply list_elem_of_fmap_2. by eapply list_elem_of_lookup_2. }
    rewrite Hm0. f_equal. simpl.
    specialize (Hlast i0 o0 Hi0 Ho0). specialize (Hlast0 i o Hi Ho). lia.
Qed.

Lemma cell_positions_hit opts key :
  key ∈ order <$> opts →
  ∃ i o, cell_positions opts !! key = Some i ∧ opts !! i = Some o ∧ order o = key.
Proof.
  intros Hin. destruct (cell_positions_from_any opts ∅ 0 key) as [H1 _].
  destruct (H1 Hin) as (i & o & Hm & Hi & Ho & _). by exists i, o.
Qed.

Lemma foldR_app {A S} (f : S → A → Result S) (s : S) (l1 l2 : list A) :
  foldR f s (l1 ++ l2) = (s' ← foldR f s l1; foldR f s' l2).
Proof.
  revert s. induction l1 as [|x l1 IH]; intros s; simpl; [done|].
  destruct (f s x); simpl; [apply IH|done].
Qed.

Section Shape.
Context {rt : Runtime}.
Context (it : Reflect.rtype) (sorted : list parseOpts).
Context (Hstruct : Reflect.TKind it = Reflect.Struct).
Context (Hperm : sorted ≡ₚ omap column_of (Reflect.TFields it)).
Context (Hparse : ∀ f, f ∈ Reflect.TFields it → skipped (xls_tag f) = false →
                       is_Some (column_of f)).

(** A tagged field finds the specification at the position of its order;
    if the field is exported, its value is read and rendered with that
    specification. *)
Lemma writeField_tagged fvs values j f val :
  Reflect.TFields it !! j = Some f → skipped (xls_tag f) = false →
  fvs !! j = Some val → length values = length sorted →
  ∃ pos o opt,
    targets it sorted j pos ∧ sorted !! pos = Some o
    ∧ column_of f = Some opt ∧ order o = order opt
    ∧ writeField sorted (cell_positions sorted) (VStruct it fvs) values j
      = if String.eqb (Reflect.PkgPath f) ""
        then text ← render o val; Ok (<[pos := text]> values)
        else Panic "reflect.Value.Interface: cannot return value obtained from unexported field or method".
Proof.
  intros Hf Hs Hv Hlen.
  destruct (Hparse f) as [opt Hc]; [by eapply list_elem_of_lookup_2|done|].
  destruct (column_of_order f opt Hc) as (_ & Hp & Ho).
  destruct (cell_positions_hit sorted (order opt)) as (pos & o & Hm & Hpos & Hoo).
  { apply list_elem_of_fmap_2. rewrite Hperm. apply list_elem_of_omap.
    exists f. split; [|done]. by eapply list_elem_of_lookup_2. }
  exists pos, o, opt. split_and!; [by exists f, opt|done..|].
  unfold writeField, Value_Type, Type_Field, Value_Field, Type_Field. simpl.
  rewrite Hstruct, Hf. simpl. fold (xls_tag f). fold (skipped (xls_tag f)).
  rewrite Hs. destruct (orderFromTag (xls_tag f)) as [n e] eqn:Hn.
  simpl in Ho. subst n. rewrite Hm. simpl.
  unfold index. rewrite Hpos. simpl. rewrite Hv.
  destruct (String.eqb (Reflect.PkgPath f) ""); simpl; [|done].
  destruct (render o val) as [text|msg]; simpl; [|done].
  unfold set_index. rewrite decide_True; [done|].
  rewrite Hlen. by eapply lookup_lt_Some.
Qed.

Lemma fields_written_any fvs (js : list nat) (values : list string) :
  (∀ j, j ∈ js → (j < length (Reflect.TFields it))%nat) →
  (∀ j f, j ∈ js → Reflect.TFields it !! j = Some f →
          skipped (xls_tag f) = false → Reflect.PkgPath f = "") →
  (∀ j f opt o val, j ∈ js → Reflect.TFields it !! j = Some f →
     column_of f = Some opt → o ∈ sorted → order o = order opt →
     fvs !! j = Some val → ∃ text, render o val = Ok text) →
  length fvs = length (Reflect.TFields it) →
  length values = length sorted →
  ∃ values',
    foldR (writeField sorted (cell_positions sorted) (VStruct it fvs)) values js
    = Ok values'
    ∧ length values' = length sorted.
Proof.
  revert values. induction js as [|j js IH]; intros values Hjs Hexp Hren Hfvs Hlen.
  - by exists values.
  - destruct (lookup_lt_is_Some_2 (Reflect.TFields it) j) as [f Hf].
    { apply Hjs. by left. }
    destruct (lookup_lt_is_Some_2 fvs j) as [val Hv].
    { rewrite Hfvs. by eapply lookup_lt_Some. }
    assert (∀ j', j' ∈ js → (j' < length (Reflect.TFields it))%nat) as Hjs'.
    { intros j' ?. apply Hjs. by right. }
    assert (∀ j' f', j' ∈ js → Reflect.TFields it !! j' = Some f' →
              skipped (xls_tag f') = false → Reflect.PkgPath f' = "") as Hexp'.
    { intros j' f' ?. apply Hexp. by right. }
    assert (∀ j' f' opt o val', j' ∈ js → Reflect.TFields it !! j' = Some f' →
              column_of f' = Some opt → o ∈ sorted → order o = order opt →
              fvs !! j' = Some val' → ∃ text, render o val' = Ok text) as Hren'.
    { intros j' f' opt o val' ?. apply Hren. by right. }
    simpl. destruct (skipped (xls_tag f)) eqn:Hs.
    + rewrite (writeField_skipped it sorted Hstruct fvs values j f Hf Hs). simpl.
      by apply IH.
    + destruct (writeField_tagged fvs values j f val Hf Hs Hv Hlen)
        as (pos & o & opt & _ & Hpos & Hc & Ho & ->).
      rewrite (Hexp j f) by (done || by left). simpl.
      destruct (Hren j f opt o val) as [text ->]; [by left|done..| |done|done|].
      { by eapply list_elem_of_lookup_2. }
      simpl. apply IH; [done..|by rewrite length_insert].
Qed.

Lemma writeItem_any t items values i fvs sheet :
  items !! i = Some (VStruct it fvs) →
  (∀ f, f ∈ Reflect.TFields it → skipped (xls_tag f) = false →
        Reflect.PkgPath f = "") →
  length fvs = length (Reflect.TFields it) →
  renders (Reflect.TFields it) sorted fvs →
  length values = length sorted →
  ∃ row,
    writeItem sorted (cell_positions sorted) (VList t items) values i sheet
    = (Ok row, sheet ++ [row])
    ∧ length row = length sorted.
Proof.
  intros Hi Hexp Hfvs Hren Hlen.
  destruct (fields_written_any fvs (seq 0 (length (Reflect.TFields it))) values)
    as (row & Hrun & Hlen'); [| | |done..|].
  { intros j Hj%elem_of_seq. lia. }
  { intros j f _ Hf. apply Hexp. by eapply list_elem_of_lookup_2. }
  { intros j f opt o val _. apply Hren. }
  exists row. split; [|done].
  unfold writeItem, Value_Index, Value_NumField, Value_Type, Type_NumField.
  rewrite Hi, bind_lift_Ok. cbn [reflect_TypeOf]. rewrite bind_Ok, Hstruct.
  rewrite bind_lift_Ok, Hrun, bind_lift_Ok.
  unfold mbind, M_bind. by rewrite writeRow_appends.
Qed.

Lemma items_written_any t items (indices : list nat) values sheet :
  (∀ f, f ∈ Reflect.TFields it → skipped (xls_tag f) = false →
        Reflect.PkgPath f = "") →
  (∀ i, i ∈ indices → ∃ fvs, items !! i = Some (VStruct it fvs)
                            ∧ length fvs = length (Reflect.TFields it)
                            ∧ renders (Reflect.TFields it) sorted fvs) →
  length values = length sorted →
  ∃ rows values',
    foldM (writeItem sorted (cell_positions sorted) (VList t items)) values indices sheet
    = (Ok values', sheet ++ rows)
    ∧ length rows = length indices
    ∧ Forall (λ row, length row = length sorted) rows.
Proof.
  intros Hexp. revert values sheet.
  induction indices as [|i indices IH]; intros values sheet Hall Hlen.
  - exists [], values. split_and!; [by rewrite app_nil_r|done|done].
  - destruct (Hall i) as (fvs & Hi & Hfvs & Hren); [by left|].
    destruct (writeItem_any t items values i fvs sheet Hi Hexp Hfvs Hren Hlen)
      as (row & Hrun & Hlen').
    destruct (IH row (sheet ++ [row])) as (rows & values' & Hrest & Hlenr & Hrows);
      [by intros; apply Hall; right|done|].
    exists (row :: rows), values'. split_and!.
    + simpl. unfold mbind, M_bind at 1. rewrite Hrun, Hrest.
      by rewrite <- app_assoc.
    + simpl. by rewrite Hlenr.
    + by constructor.
Qed.

(** The first item panics at the field [f]: in [Value.Interface] if the
    field is not exported, else with the panic of the type switch on the
    value of the field; the row of the item is not written. *)
Lemma writeItem_panics t items values fvs sheet before f after val msg :
  items !! 0%nat = Some (VStruct it fvs) →
  Reflect.TFields it = before ++ f :: after →
  (∀ g, g ∈ before → skipped (xls_tag g) = false → Reflect.PkgPath g = "") →
  renders before sorted fvs →
  skipped (xls_tag f) = false →
  fvs !! length before = Some val →
  (if String.eqb (Reflect.PkgPath f) ""
   then ∀ o, o ∈ sorted → render o val = Panic msg
   else msg = "reflect.Value.Interface: cannot return value obtained from unexported field or method") →
  length fvs = length (Reflect.TFields it) →
  length values = length sorted →
  writeItem sorted (cell_positions sorted) (VList t items) values 0 sheet
  = (Panic msg, sheet).
Proof.
  intros Hi Hfields Hexp Hren Hs Hv Hmsg Hfvs Hlen.
  unfold writeItem, Value_Index, Value_NumField, Value_Type, Type_NumField.
  rewrite Hi, bind_lift_Ok. cbn [reflect_TypeOf]. rewrite bind_Ok, Hstruct.
  rewrite bind_lift_Ok.
  assert (seq 0 (length (Reflect.TFields it))
          = seq 0 (length before) ++ length before :: seq (S (length before)) (length after))
    as ->.
  { rewrite Hfields, length_app. simpl. rewrite seq_app. simpl. done. }
  rewrite foldR_app.
  destruct (fields_written_any fvs (seq 0 (length before)) values)
    as (values' & -> & Hlen'); [| | |done..|].
  { intros j Hj%elem_of_seq. rewrite Hfields, length_app. lia. }
  { intros j g Hj%elem_of_seq Hg. apply Hexp.
    rewrite Hfields, lookup_app_l in Hg by lia. by eapply list_elem_of_lookup_2. }
  { intros j g opt o val' Hj%elem_of_seq Hg. apply Hren.
    by rewrite Hfields, lookup_app_l in Hg by lia. }
  assert (Reflect.TFields it !! length before = Some f) as Hf.
  { rewrite Hfields. by apply list_lookup_middle. }
  simpl.
  destruct (writeField_tagged fvs values' (length before) f val Hf Hs Hv Hlen')
    as (pos & o & opt & _ & Hpos & _ & _ & ->).
  destruct (String.eqb (Reflect.PkgPath f) "").
  - rewrite (Hmsg o) by (by eapply list_elem_of_lookup_2). done.
  - by subst msg.
Qed.

End Shape.

Lemma targets_fun it sorted j pos pos' :
  targets it sorted j pos → targets it sorted j pos' → pos = pos'.
Proof.
  intros (f & opt & Hf & Hc & Hm) (f' & opt' & Hf' & Hc' & Hm'). congruence.
Qed.

Section Cells.
Context {rt : Runtime}.
Context (it : Reflect.rtype) (sorted : list parseOpts).
Context (Hstruct : Reflect.TKind it = Reflect.Struct).
Context (Hperm : sorted ≡ₚ omap column_of (Reflect.TFields it)).
Context (Hparse : ∀ f, f ∈ Reflect.TFields it → skipped (xls_tag f) = false →
                       is_Some (column_of f)).
Context (Hexported : ∀ f, f ∈ Reflect.TFields it → skipped (xls_tag f) = false →
                          Reflect.PkgPath f = "").

Lemma writeField_target fvs values j f val :
  Reflect.TFields it !! j = Some f → skipped (xls_tag f) = false →
  fvs !! j = Some val → length values = length sorted →
  renders (Reflect.TFields it) sorted fvs →
  ∃ pos o text,
    targets it sorted j pos ∧ sorted !! pos = Some o ∧ render o val = Ok text
    ∧ writeField sorted (cell_positions sorted) (VStruct it fvs) values j
      = Ok (<[pos := text]> values).
Proof.
  intros Hf Hs Hv Hlen Hren.
  destruct (writeField_tagged it sorted Hstruct Hperm Hparse fvs values j f val
              Hf Hs Hv Hlen) as (pos & o & opt & Ht & Hpos & Hc & Ho & ->).
  destruct (Hren j f opt o val) as [text Hr]; [done..| |done|done|].
  { by eapply list_elem_of_lookup_2. }
  exists pos, o, text. split_and!; [done..|].
  rewrite (Hexported f) by (by eauto using list_elem_of_lookup_2). simpl.
  by rewrite Hr.
Qed.

Lemma fields_written_last fvs (js : list nat) (values : list string) :
  (∀ j, j ∈ js → (j < length (Reflect.TFields it))%nat) →
  length fvs = length (Reflect.TFields it) →
  renders (Reflect.TFields it) sorted fvs →
  length values = length sorted →
  ∃ values',
    foldR (writeField sorted (cell_positions sorted) (VStruct it fvs)) values js
    = Ok values'
    ∧ length values' = length sorted
    ∧ (∀ pos, (∀ j, j ∈ js → ¬ targets it sorted j pos) →
              values' !! pos = values !! pos)
    ∧ (∀ l1 j l2 pos o val text,
         js = l1 ++ j :: l2 → targets it sorted j pos →
         (∀ j', j' ∈ l2 → ¬ targets it sorted j' pos) →
         sorted !! pos = Some o → fvs !! j = Some val →
         render o val = Ok text →
         values' !! pos = Some text).
Proof.
  revert values. induction js as [|x js IH]; intros values Hjs Hfvs Hren Hlen.
  - exists values. split_and!; [done..|].
    intros l1 j l2 ???? Heq. by destruct l1.
  - destruct (lookup_lt_is_Some_2 (Reflect.TFields it) x) as [f Hf].
    { apply Hjs. by left. }
    destruct (lookup_lt_is_Some_2 fvs x) as [val Hv].
    { rewrite Hfvs. by eapply lookup_lt_Some. }
    assert (∀ j', j' ∈ js → (j' < length (Reflect.TFields it))%nat) as Hjs'.
    { intros j' ?. apply Hjs. by right. }
    simpl. destruct (skipped (xls_tag f)) eqn:Hs.
    + rewrite (writeField_skipped it sorted Hstruct fvs values x f Hf Hs). simpl.
      destruct (IH values Hjs' Hfvs Hren Hlen)
        as (values' & Hrun & Hlen' & Hframe & Hlast).
      exists values'. split_and!; [done..| |].
      * intros pos Hpos. apply Hframe. intros j ?. apply Hpos. by right.
      * intros [|y l1] j l2 pos o val' text Heq Ht Hl2 Hpos Hval Hr; simpl in Heq;
          injection Heq as -> ->.
        -- destruct Ht as (f' & opt & Hf' & Hc & _).
           rewrite Hf in Hf'. injection Hf' as <-.
           apply column_of_order in Hc as [Hs' _]. congruence.
        -- by eapply (Hlast l1 j l2).
    + destruct (writeField_target fvs values x f val Hf Hs Hv Hlen Hren)
        as (px & ox & tx & Htx & Hpx & Hrx & ->). simpl.
      destruct (IH (<[px := tx]> values) Hjs' Hfvs Hren)
        as (values' & Hrun & Hlen' & Hframe & Hlast); [by rewrite length_insert|].
      exists values'. split_and!; [done..| |].
      * intros pos Hpos. rewrite Hframe.
        -- apply list_lookup_insert_ne. intros <-. by apply (Hpos x); [left|].
        -- intros j ?. apply Hpos. by right.
      * intros [|y l1] j l2 pos o val' text Heq Ht Hl2 Hpos Hval Hr; simpl in Heq;
          injection Heq as -> ->.
        -- assert (pos = px) as -> by (by eapply targets_fun).
           rewrite Hframe by done. simplify_eq.
           assert (text = tx) as -> by congruence.
           apply list_lookup_insert_eq. rewrite Hlen. by eapply lookup_lt_Some.
        -- by eapply (Hlast l1 j l2).
Qed.

Lemma writeItem_last t items values i fvs sheet :
  items !! i = Some (VStruct it fvs) →
  length fvs = length (Reflect.TFields it) →
  renders (Reflect.TFields it) sorted fvs →
  length values = length sorted →
  ∃ row,
    writeItem sorted (cell_positions sorted) (VList t items) values i sheet
    = (Ok row, sheet ++ [row])
    ∧ length row = length sorted
    ∧ (∀ pos, (∀ j, ¬ targets it sorted j pos) → row !! pos = values !! pos)
    ∧ (∀ j pos o val text,
         targets it sorted j pos →
         (∀ j', (j < j')%nat → ¬ targets it sorted j' pos) →
         sorted !! pos = Some o → fvs !! j = Some val →
         render o val = Ok text →
         row !! pos = Some text).
Proof.
  intros Hi Hfvs Hren Hlen.
  destruct (fields_written_last fvs (seq 0 (length (Reflect.TFields it))) values)
    as (row & Hrun & Hlen' & Hframe & Hlast); [|done..|].
  { intros j Hj%elem_of_seq. lia. }
  exists row. split_and!; [|done| |].
  - unfold writeItem, Value_Index, Value_NumField, Value_Type, Type_NumField.
    rewrite Hi, bind_lift_Ok. cbn [reflect_TypeOf]. rewrite bind_Ok, Hstruct.
    rewrite bind_lift_Ok, Hrun, bind_lift_Ok.
    unfold mbind, M_bind. by rewrite writeRow_appends.
  - intros pos Hpos. apply Hframe. intros j _. apply Hpos.
  - intros j pos o val text Ht Hlater Hpos Hval Hr.
    assert (j < length (Reflect.TFields it))%nat as Hj.
    { destruct Ht as (f & _ & Hf & _). by eapply lookup_lt_Some. }
    apply (Hlast (seq 0 j) j (seq (S j) (length (Reflect.TFields it) - S j))
             pos o val text); [|done| |done..].
    + replace (length (Reflect.TFields it))
        with (j + S (length (Reflect.TFields it) - S j))%nat at 1 by lia.
      by rewrite seq_app.
    + intros j' Hj'%elem_of_seq. apply Hlater. lia.
Qed.

Lemma items_written_last t items (indices : list nat) values sheet :
  (∀ i, i ∈ indices → ∃ fvs, items !! i = Some (VStruct it fvs)
                            ∧ length fvs = length (Reflect.TFields it)
                            ∧ renders (Reflect.TFields it) sorted fvs) →
  length values = length sorted →
  ∃ rows values',
    foldM (writeItem sorted (cell_positions sorted) (VList t items)) values indices sheet
    = (Ok values', sheet ++ rows)
    ∧ length rows = length indices
    ∧ ∀ k i fvs, indices !! k = Some i → items !! i = Some (VStruct it fvs) →
        ∃ row, rows !! k = Some row
               ∧ (∀ pos, (∀ j, ¬ targets it sorted j pos) → row !! pos = values !! pos)
               ∧ (∀ j pos o val text,
                    targets it sorted j pos →
                    (∀ j', (j < j')%nat → ¬ targets it sorted j' pos) →
                    sorted !! pos = Some o → fvs !! j = Some val →
                    render o val = Ok text →
                    row !! pos = Some text).
Proof.
  revert values sheet. induction indices as [|i indices IH]; intros values sheet Hall Hlen.
  - exists [], values. split_and!; [by rewrite app_nil_r|done|done].
  - destruct (Hall i) as (fvs & Hi & Hfvs & Hren); [by left|].
    destruct (writeItem_last t items values i fvs sheet Hi Hfvs Hren Hlen)
      as (row & Hrun & Hlen' & Hframe & Hlast).
    destruct (IH row (sheet ++ [row])) as (rows & values' & Hrest & Hlenr & Hrows);
      [by intros; apply Hall; right|done|].
    exists (row :: rows), values'. split_and!.
    + simpl. unfold mbind, M_bind at 1. rewrite Hrun, Hrest.
      by rewrite <- app_assoc.
    + simpl. by rewrite Hlenr.
    + intros [|k] i' fvs' Hk Hi'; simpl in Hk.
      * simplify_eq. exists row. by split_and!.
      * destruct (Hrows k i' fvs' Hk Hi') as (row' & Hrow' & Hframe' & Hlast').
        exists row'. split_and!; [done| |done].
        intros pos Hpos. by rewrite Hframe', Hframe.
Qed.

End Cells.

(** ** The sheet is only appended to *)

Lemma appends_ret {A} (a : A) : appends (mret a).
Proof. exists (Ok a), []. intros sheet. by rewrite app_nil_r. Qed.

Lemma appends_lift {A} (r : Result A) : appends (lift r).
Proof. exists r, []. intros sheet. by rewrite app_nil_r. Qed.

Lemma appends_bind {A B} (m : M A) (k : A → M B) :
  appends m → (∀ a, appends (k a)) → appends (m ≫= k).
Proof.
  intros ([a|msg] & out & Hm) Hk.
  - destruct (Hk a) as (r & out' & Hka).
    exists r, (out ++ out'). intros sheet.
    unfold mbind, M_bind. by rewrite Hm, Hka, app_assoc.
  - exists (Panic msg), out. intros sheet. unfold mbind, M_bind. by rewrite Hm.
Qed.

Lemma appends_writeRow data : appends (writeRow data).
Proof. exists (Ok tt), [data]. intros sheet. apply writeRow_appends. Qed.

Lemma appends_foldM {A S} (f : S → A → M S) (s : S) (l : list A) :
  (∀ s x, appends (f s x)) → appends (foldM f s l).
Proof.
  intros Hf. revert s. induction l as [|x l IH]; intros s; simpl.
  - apply appends_ret.
  - apply appends_bind; [apply Hf|apply IH].
Qed.

(** ** Fields that are no columns *)

Lemma collect_skips before f after acc :
  skipped (xls_tag f) = true →
  collect (before ++ f :: after) acc = collect (before ++ after) acc.
Proof.
  intros Hs. revert acc. induction before as [|g before IH]; intros acc; simpl.
  - by rewrite Hs.
  - destruct (skipped (xls_tag g)); [apply IH|].
    destruct (parseOptFromTag (xls_tag g)) as [opt [err|]]; [done|apply IH].
Qed.

(** ** The tags of the patterns are tags of the specification *)

Lemma bare_is_text c :
  bare_class c = true →
  negb (Ascii.eqb c dquote_byte) = true ∧ negb (Ascii.eqb c ",") = true.
Proof. revert c. intros [[] [] [] [] [] [] [] []]; by vm_compute. Qed.

Lemma quoted_is_text c :
  quoted_class c = true → negb (Ascii.eqb c dquote_byte) = true.
Proof. revert c. intros [[] [] [] [] [] [] [] []]; by vm_compute. Qed.

Lemma format_is_value c :
  format_class c = true → negb (Ascii.eqb c ",") = true.
Proof. revert c. intros [[] [] [] [] [] [] [] []]; by vm_compute. Qed.

Lemma valid_is_spec_valid N h F :
  valid_order N → valid_heading h → valid_format F →
  spec_valid_order N ∧ spec_valid_heading h ∧ spec_valid_format F.
Proof.
  intros (HN & Hd & Hmax) (Hh & Hcls & Htrim) (HF & Hfmt). split; [|split].
  - exists N. split_and!; [by left|done..].
  - unfold spec_valid_heading. split_and!; [done| |].
    + destruct h as [text|body]; simpl in *.
      * eapply string_forall_impl; [|exact Hcls]. intros c Hc. by apply bare_is_text.
      * eapply string_forall_impl; [|exact Hcls]. apply quoted_is_text.
    + destruct h as [text|body]; [|done]. simpl in *. split; [done|].
      eapply string_forall_impl; [|exact Hcls]. intros c Hc. by apply bare_is_text.
  - split; [done|].
    eapply string_forall_impl; [|exact Hfmt]. apply format_is_value.
Qed.

(** ** [writeWithTags] from the header on *)

Lemma renders_sorted {rt : Runtime} fields opts sorted fvs :
  sorted ≡ₚ opts → renders fields opts fvs → renders fields sorted fvs.
Proof.
  intros Hsp Hren j f opt o val Hf Hc Ho. apply (Hren j f opt o val Hf Hc).
  by rewrite <- Hsp.
Qed.

(** When the tags parse, [writeWithTags] writes the header and goes on to
    the items. *)
Lemma writeWithTags_rows {rt : Runtime} t itemsType items sheet :
  Type_Elem t = Ok itemsType →
  Reflect.TKind itemsType = Reflect.Struct →
  (collect (Reflect.TFields itemsType) []).2 = None →
  let sorted := sort_Sort (omap column_of (Reflect.TFields itemsType)) in
  writeWithTags (VList t items) sheet
  = (foldM (writeItem sorted (cell_positions sorted) (VList t items))
       (replicate (length sorted) "") (seq 0 (length items));;
     mret None) (sheet ++ [heading <$> sorted]).
Proof.
  intros Helem Hstruct Hnone sorted.
  destruct (collect (Reflect.TFields itemsType) []) as [opts e] eqn:Hcollect.
  simpl in Hnone. subst e.
  pose proof (collect_ok _ _ _ Hcollect) as [Hcols _]. simpl in Hcols. subst opts.
  unfold writeWithTags, getListType. simpl. rewrite Helem.
  rewrite bind_lift_Ok.
  rewrite (getParseOptions_collect _ Hstruct).
  rewrite Hcollect, bind_lift_Ok. cbv beta iota.
  unfold mbind at 1, M_bind at 1. rewrite writeHeadingFromOpts_appends.
  by rewrite bind_lift_Ok.
Qed.

(** The first item panics at the field [f], the header written. *)
Lemma writeWithTags_first_panic {rt : Runtime}
    t itemsType fvs more opts before f after val msg sheet :
  Type_Elem t = Ok itemsType →
  getParseOptions itemsType = Ok (opts, None) →
  sort_Sort opts ≡ₚ opts →
  Reflect.TFields itemsType = before ++ f :: after →
  (∀ g, g ∈ before → skipped (xls_tag g) = false → Reflect.PkgPath g = "") →
  renders before opts fvs →
  skipped (xls_tag f) = false →
  fvs !! length before = Some val →
  (if String.eqb (Reflect.PkgPath f) ""
   then ∀ o, o ∈ opts → render o val = Panic msg
   else msg = "reflect.Value.Interface: cannot return value obtained from unexported field or method") →
  length fvs = length (Reflect.TFields itemsType) →
  writeWithTags (VList t (VStruct itemsType fvs :: more)) sheet
  = (Panic msg, sheet ++ [heading <$> sort_Sort opts]).
Proof.
  intros Helem Hopts Hsp Hfields Hexp Hren Hs Hv Hmsg Hfvs.
  pose proof (getParseOptions_struct _ _ Hopts) as Hstruct.
  rewrite (getParseOptions_collect _ Hstruct) in Hopts. injection Hopts as Hopts.
  pose proof Hopts as Hcollect.
  apply collect_ok in Hopts as [Hcols Hparse]. simpl in Hcols. subst opts.
  set (opts := omap column_of (Reflect.TFields itemsType)) in *.
  assert (∀ f, f ∈ Reflect.TFields itemsType → skipped (xls_tag f) = false →
               is_Some (column_of f)) as Hparse'.
  { intros g Hg Hsg. destruct (Hparse g Hg Hsg) as [opt Hopt].
    exists opt. unfold column_of. by rewrite Hsg, Hopt. }
  rewrite (writeWithTags_rows t itemsType) by (done || by rewrite Hcollect).
  fold opts. simpl seq. simpl foldM.
  unfold mbind at 1, M_bind at 1. unfold mbind at 1, M_bind at 1.
  rewrite (writeItem_panics itemsType (sort_Sort opts) Hstruct Hsp Hparse'
             t _ _ fvs _ before f after val msg); try done.
  - by eapply renders_sorted.
  - destruct (String.eqb (Reflect.PkgPath f) ""); [|done].
    intros o Ho. apply Hmsg. by rewrite <- Hsp.
  - by rewrite length_replicate.
Qed.

(** The type switch returns on the values of the examples, none of which
    is a nil pointer. *)
Ltac example_renders :=
  let j := fresh "j" in
  let Hf := fresh "Hf" in
  let Hv := fresh "Hv" in
  intros j ? ? ? ? Hf _ _ _ Hv;
  repeat (destruct j as [|j]; [injection Hv as <-; eexists; reflexivity|]);
  (discriminate Hv || (simpl in Hf; discriminate Hf)).

Ltac example_items :=
  let Hitem := fresh "Hitem" in
  intros ? Hitem;
  repeat (apply elem_of_cons in Hitem as [->|Hitem];
          [eexists; split_and!; [reflexivity|reflexivity|example_renders]|]);
  by apply elem_of_nil in Hitem.

(* ===================================================================== *)
(** * Part VIII: the properties of the writer *)
(* ===================================================================== *)

(** ** The grammar of the tags *)

(** C7, as the code has it.  A tag with [order=N] and [heading=H], and
    [format=F] or not, in any order, whose values are of the classes of the
    three patterns, parses to the order [N] denotes, to the heading [H]
    without its quotes and the white space around, and to the format [F],
    or the empty string without one. *)
Theorem parseOptFromTag_valid N h F keys :
  valid_keys keys → valid_order N → valid_heading h → valid_format F →
  parseOptFromTag (tag_of N h F keys)
  = (mkOpts (decimal N) (strings_TrimSpace (content h))
       (if bool_decide (KFormat ∈ keys) then F else ""), None).
Proof.
  intros Hkeys HN Hh HF.
  assert (KOrder ∈ keys ∧ KHeading ∈ keys) as [HinO HinH].
  { destruct Hkeys as [Hp|Hp]; rewrite Hp; set_solver. }
  unfold parseOptFromTag, orderFromTag, headingFromTag, formatFromTag.
  rewrite (submatch_found KOrder _ N) by by apply (found_in_tag N h F).
  rewrite Atoi_digits by done.
  rewrite (submatch_found KHeading _ (written h)) by by apply (found_in_tag N h F).
  rewrite Trim_written by done.
  pose proof Hh as (_ & _ & Hne).
  destruct (String.eqb (strings_TrimSpace (content h)) "") eqn:He.
  { by apply String.eqb_eq in He. }
  simpl. f_equal. f_equal. case_bool_decide as Hin.
  - exact (submatch_found KFormat _ F (found_in_tag N h F HN Hh HF KFormat keys Hin)).
  - apply (submatch_absent KFormat), (absent_from_tag N h F); done.
Qed.

Lemma parseOptFromTag_valid_witness :
  parseOptFromTag ("heading=" +:+ dquote +:+ "Full, name " +:+ dquote
                   +:+ ",format=%05d,order=012")
  = (mkOpts 12 "Full, name" "%05d", None).
Proof.
  apply (parseOptFromTag_valid "012" (Quoted "Full, name ") "%05d"
           [KHeading; KFormat; KOrder]).
  - right. etrans; [apply perm_skip, Permutation_swap|apply Permutation_swap].
  - split_and!; [discriminate|reflexivity|vm_compute; discriminate].
  - split_and!; [discriminate|reflexivity|discriminate].
  - split; [discriminate|reflexivity].
Defined.

(** C7 as the spec states it fails.  [15:04] is a layout of [Time.Format]
    and a value of the grammar, but the colon is none of the bytes
    [formatRegex] reads: the pattern has no match in the tag, and the
    format is dropped without an error. *)
Lemma parseOptFromTag_drops_format :
  valid_keys [KOrder; KHeading; KFormat]
  ∧ spec_valid_order "1" ∧ spec_valid_heading (Bare "Time")
  ∧ spec_valid_format "15:04"
  ∧ tag_of "1" (Bare "Time") "15:04" [KOrder; KHeading; KFormat]
    = "order=1,heading=Time,format=15:04"
  ∧ parseOptFromTag "order=1,heading=Time,format=15:04"
    = (mkOpts 1 "Time" "", None)
  ∧ format (parseOptFromTag "order=1,heading=Time,format=15:04").1 ≠ "15:04".
Proof.
  split_and!.
  - by right.
  - exists "1". split_and!; [by left|done|done|by vm_compute].
  - split_and!; [by vm_compute|done|by split].
  - by split.
  - reflexivity.
  - vm_compute. reflexivity.
  - vm_compute. discriminate.
Qed.

(** Other tags of the specification the patterns do not read: a signed
    order and a heading with a hyphen are refused, a template with a plus
    sign is dropped, and an order followed by a space is no integer. *)
Example signed_order_fails :
  parseOptFromTag "order=-1,heading=Time"
  = (zeroOpts, Some (NumError "Atoi" "" ErrSyntax)).
Proof. vm_compute. reflexivity. Qed.

Example heading_with_hyphen_fails :
  parseOptFromTag "order=1,heading=Sub-total"
  = (zeroOpts, Some ErrHeadingPropRequired).
Proof. vm_compute. reflexivity. Qed.

Example format_with_plus_is_dropped :
  parseOptFromTag "order=1,heading=Delta,format=%+d"
  = (mkOpts 1 "Delta" "", None).
Proof. vm_compute. reflexivity. Qed.

Example order_with_space_fails :
  parseOptFromTag "order=1 ,heading=Time"
  = (zeroOpts, Some (NumError "Atoi" "1 " ErrSyntax)).
Proof. vm_compute. reflexivity. Qed.

(** ** The type switch *)

(** C1, as the code runs.  For a value of one of the eight predeclared
    types, the format of the column is the template only when it is empty;
    a format that is not empty is replaced by [%v]: [hasFormatting] tests
    the format for being empty. *)
Theorem render_basic_format_inverted {rt : Runtime} opt val :
  is_basic val = true →
  render opt val
  = fmt_Sprintf (if String.eqb (format opt) "" then "" else "%v") [val].
Proof.
  intros Hb. unfold render, hasFormatting.
  destruct (String.eqb (format opt) "") eqn:He.
  - apply String.eqb_eq in He. rewrite He. by destruct val.
  - by destruct val.
Qed.

Lemma render_basic_format_inverted_witness :
  render (rt := exampleRuntime) (mkOpts 1 "Price" "%.2f") (VFloat64 0)
  = fmt_Sprintf (Runtime := exampleRuntime) "%v" [VFloat64 0].
Proof.
  apply (render_basic_format_inverted (rt := exampleRuntime)
           (mkOpts 1 "Price" "%.2f") (VFloat64 0)).
  reflexivity.
Defined.

(** C2, as the code runs.  For a time that is not zero, a format that is
    not empty is ignored and [Time.String] is used; without a format the
    time is formatted with the empty layout. *)
Theorem render_time_format_inverted {rt : Runtime} opt t :
  IsZero t = false →
  render opt (VTime t)
  = Ok (if String.eqb (format opt) "" then time_Format t "" else time_String t).
Proof.
  intros Hz. unfold render, hasFormatting. rewrite Hz.
  destruct (String.eqb (format opt) "") eqn:He; [|done].
  apply String.eqb_eq in He. by rewrite He.
Qed.

Lemma render_time_format_inverted_witness :
  render (rt := exampleRuntime) (mkOpts 3 "Born" "2006-01-02") (VTime someTime)
  = Ok (time_String (Runtime := exampleRuntime) someTime).
Proof.
  apply (render_time_format_inverted (rt := exampleRuntime)
           (mkOpts 3 "Born" "2006-01-02") someTime).
  reflexivity.
Defined.

(** C5.  The zero time is rendered as [" - "], whatever the format. *)
Theorem render_zero_time {rt : Runtime} opt t :
  IsZero t = true → render opt (VTime t) = Ok " - ".
Proof. intros Hz. unfold render. by rewrite Hz. Qed.

Lemma render_zero_time_witness :
  render (rt := exampleRuntime) (mkOpts 3 "Born" "2006-01-02") (VTime zeroTime)
  = Ok " - ".
Proof.
  apply (render_zero_time (rt := exampleRuntime) (mkOpts 3 "Born" "2006-01-02") zeroTime).
  reflexivity.
Defined.

(** C8.  A value whose dynamic type has the method [String() string], and
    is none of the eight predeclared types of the first case nor
    [time.Time], is rendered by that method, whatever the format. *)
Theorem render_stringer {rt : Runtime} opt val :
  has_methods val Stringer = true →
  is_basic val = false →
  is_time val = false →
  render opt val = call_String val.
Proof.
  intros Hm Hb Ht. unfold render. destruct val; try done; by rewrite Hm.
Qed.

Lemma render_stringer_witness :
  render (rt := exampleRuntime) (mkOpts 1 "Colour" "%d") red
  = call_String (Runtime := exampleRuntime) red.
Proof.
  apply (render_stringer (rt := exampleRuntime) (mkOpts 1 "Colour" "%d") red);
    reflexivity.
Defined.

(** ** The columns and the rows *)

(** C4, as the code has it.  When the tags of the fields parse, no two
    columns share an order, the tagged fields are exported, the type switch
    returns on their values (no [String] method panics) and [sort.Sort]
    keeps its contract on the columns, [writeWithTags] appends the headings
    of the columns in strictly ascending order, then one row per item; in
    each row the cell at the position of a column is the rendering of the
    value of the field of that column. *)
Theorem writeWithTags_columns {rt : Runtime} t itemsType items opts sheet :
  Type_Elem t = Ok itemsType →
  getParseOptions itemsType = Ok (opts, None) →
  sort_Sort opts ≡ₚ opts →
  StronglySorted in_order (sort_Sort opts) →
  NoDup (order <$> opts) →
  (∀ f, f ∈ Reflect.TFields itemsType → skipped (xls_tag f) = false →
        Reflect.PkgPath f = "") →
  (∀ item, item ∈ items →
     ∃ fvs, item = VStruct itemsType fvs
            ∧ length fvs = length (Reflect.TFields itemsType)
            ∧ renders (Reflect.TFields itemsType) opts fvs) →
  ∃ columns rows,
    writeWithTags (VList t items) sheet
    = (Ok None, sheet ++ (heading <$> columns) :: rows)
    ∧ columns ≡ₚ omap column_of (Reflect.TFields itemsType)
    ∧ StronglySorted (λ a b, order a < order b) columns
    ∧ length rows = length items
    ∧ ∀ i fvs j f opt pos,
        items !! i = Some (VStruct itemsType fvs) →
        Reflect.TFields itemsType !! j = Some f →
        column_of f = Some opt →
        columns !! pos = Some opt →
        ∃ row val text,
          rows !! i = Some row ∧ length row = length columns
          ∧ fvs !! j = Some val ∧ render opt val = Ok text
          ∧ row !! pos = Some text.
Proof.
  intros Helem Hopts Hsp Hss Hnd Hexp Hitems.
  pose proof (getParseOptions_struct _ _ Hopts) as Hstruct.
  rewrite (getParseOptions_collect _ Hstruct) in Hopts. injection Hopts as Hopts.
  pose proof Hopts as Hcollect.
  apply collect_ok in Hopts as [Hcols Hparse]. simpl in Hcols. subst opts.
  set (opts := omap column_of (Reflect.TFields itemsType)) in *.
  assert (NoDup (order <$> sort_Sort opts)) as Hnd'.
  { by rewrite Hsp. }
  assert (∀ f, f ∈ Reflect.TFields itemsType → skipped (xls_tag f) = false →
               is_Some (column_of f)) as Hparse'.
  { intros f Hf Hs. destruct (Hparse f Hf Hs) as [opt Hopt].
    exists opt. unfold column_of. by rewrite Hs, Hopt. }
  assert (∀ fvs, renders (Reflect.TFields itemsType) opts fvs →
                 renders (Reflect.TFields itemsType) (sort_Sort opts) fvs) as Hsorted.
  { intros fvs Hren j f opt o val Hf Hc Ho. apply (Hren j f opt o val Hf Hc).
    by rewrite <- Hsp. }
  destruct (items_written itemsType (sort_Sort opts) Hstruct Hnd'
              Hsp Hparse' Hexp t items (seq 0 (length items))
              (replicate (length (sort_Sort opts)) "")
              (sheet ++ [heading <$> sort_Sort opts]))
    as (rows & values' & Hrun & Hlen & Hrows).
  { intros i Hi%elem_of_seq.
    destruct (lookup_lt_is_Some_2 items i) as [item Hitem]; [lia|].
    destruct (Hitems item) as (fvs & -> & Hfvs & Hren);
      [by eapply list_elem_of_lookup_2|].
    eauto. }
  { by rewrite length_replicate. }
  exists (sort_Sort opts), rows. split_and!.
  - unfold writeWithTags, getListType. simpl. rewrite Helem.
    rewrite bind_lift_Ok.
    rewrite (getParseOptions_collect _ Hstruct).
    rewrite Hcollect, bind_lift_Ok. cbv beta iota.
    unfold mbind at 1, M_bind at 1. rewrite writeHeadingFromOpts_appends.
    rewrite bind_lift_Ok.
    unfold mbind at 1, M_bind at 1.
    fold (cell_positions (sort_Sort opts)).
    unfold reflect_ValueOf. rewrite Hrun. by rewrite <- app_assoc.
  - done.
  - by apply strictly_sorted.
  - etrans; [exact Hlen|apply length_seq].
  - intros i fvs j f opt pos Hi Hf Hc Hpos.
    destruct (Hrows i i fvs) as (row & Hrow & Hlenr & Hcells); [|done|].
    { apply lookup_seq. split; [done|]. by eapply lookup_lt_Some. }
    destruct (Hitems (VStruct itemsType fvs)) as (fvs' & [= <-] & Hfvs & Hren);
      [by eapply list_elem_of_lookup_2|].
    destruct (lookup_lt_is_Some_2 fvs j) as [val Hv].
    { rewrite Hfvs. by eapply lookup_lt_Some. }
    destruct (Hren j f opt opt val) as [text Hr]; [done|done| |done|done|].
    { apply list_elem_of_omap. exists f. split; [|done].
      by eapply list_elem_of_lookup_2. }
    exists row, val, text. split_and!; [done..|].
    apply (Hcells j). by exists f, opt, val.
Qed.

(** C4 on an example: the columns of [people] come out by order, Age
    before Name before Born. *)
Lemma writeWithTags_columns_witness :
  ∃ columns rows,
    writeWithTags (rt := exampleRuntime) people []
    = (Ok None, [] ++ (heading <$> columns) :: rows)
    ∧ StronglySorted (λ a b, order a < order b) columns
    ∧ length rows = 2%nat.
Proof.
  destruct (writeWithTags_columns (rt := exampleRuntime) (sliceOf personType)
              personType
              [VStruct personType [VString "Ann"; VInt 7; VInt 41; VTime zeroTime];
               VStruct personType [VString "Bob"; VInt 9; VInt 35; VTime someTime]]
              [mkOpts 2 "Name" ""; mkOpts 1 "Age" "%03d"; mkOpts 3 "Born" ""] [])
    as (columns & rows & Hrun & Hperm & Hsorted & Hlen & _).
  - reflexivity.
  - vm_compute. reflexivity.
  - apply insertionSort_perm.
  - apply insertionSort_sorted.
  - apply (bool_decide_unpack _). vm_compute. exact I.
  - intros f Hf Hs. vm_compute in Hf.
    repeat (apply elem_of_cons in Hf as [->|Hf]; [reflexivity || discriminate Hs|]).
    by apply elem_of_nil in Hf.
  - example_items.
  - exists columns, rows. split; [exact Hrun|]. split; [exact Hsorted|exact Hlen].
Defined.

(** C4 as the spec states it fails: two fields that share the order 1 are
    given one cell.  The value of the field [A] is written to the cell of
    [B] and overwritten there; the cell under the heading [A] stays
    empty. *)
Lemma writeWithTags_shared_order_loses_value :
  writeWithTags (rt := exampleRuntime) pairs []
  = (Ok None, [["A"; "B"]; [""; " - "]])
  ∧ render (rt := exampleRuntime) (mkOpts 1 "A" "") (VTime zeroTime) = Ok " - ".
Proof. split; vm_compute; reflexivity. Qed.

(** The sheet of [people]: the columns by order; the formats as
    [hasFormatting] has them. *)
Example writeWithTags_people :
  writeWithTags (rt := exampleRuntime) people []
  = (Ok None, [["Age"; "Name"; "Born"];
               ["Sprintf(%v)"; "Sprintf()"; " - "];
               ["Sprintf(%v)"; "Sprintf()"; "Format()"]]).
Proof. vm_compute. reflexivity. Qed.

(** ** Failing tags *)




(** ** The entry point *)

(** C9.  Data that is no array and no slice is refused with
    [ErrUnsupportedType], and the sheet is as it was. *)
Theorem WriteToSheet_unsupported_type {rt : Runtime} data sheet :
  Value_Kind (reflect_ValueOf data) ≠ Reflect.Array →
  Value_Kind (reflect_ValueOf data) ≠ Reflect.Slice →
  WriteToSheet data sheet = (Ok (Some ErrUnsupportedType), sheet).
Proof.
  intros Ha Hs. unfold WriteToSheet.
  by rewrite !bool_decide_eq_false_2.
Qed.

Lemma WriteToSheet_unsupported_type_witness :
  WriteToSheet (rt := exampleRuntime) ann [["kept"]]
  = (Ok (Some ErrUnsupportedType), [["kept"]]).
Proof.
  apply (WriteToSheet_unsupported_type (rt := exampleRuntime) ann [["kept"]]);
    discriminate.
Defined.

(** C10, as the code runs.  On every slice or array of structs
    [WriteToSheet] panics: it passes the nil [Type] to [Implements].  The
    sheet is as it was. *)
Theorem WriteToSheet_panics {rt : Runtime} data t itemsType sheet :
  reflect_TypeOf data = Some t →
  Reflect.TKind t = Reflect.Slice ∨ Reflect.TKind t = Reflect.Array →
  Reflect.TElem t = Some itemsType →
  Reflect.TKind itemsType = Reflect.Struct →
  WriteToSheet data sheet
  = (Panic "reflect: nil type passed to Type.Implements", sheet).
Proof.
  intros Ht Hkind Helem Hstruct.
  by rewrite (WriteToSheet_tests_the_type data t itemsType).
Qed.

Lemma WriteToSheet_panics_witness :
  WriteToSheet (rt := exampleRuntime) people []
  = (Panic "reflect: nil type passed to Type.Implements", []).
Proof.
  apply (WriteToSheet_panics (rt := exampleRuntime) people (sliceOf personType)
           personType []).
  - reflexivity.
  - left. reflexivity.
  - reflexivity.
  - reflexivity.
Defined.

(** C3, as the code runs.  For data with the methods of [Marshaller],
    [writeWithMarshaller] appends the header and then the rows, as they
    are, as far as [Header] and [Data] return; but [WriteToSheet] does not
    get there: on a slice or array of structs it panics in the test that
    should choose the path. *)
Theorem WriteToSheet_never_reaches_marshaller {rt : Runtime} data t itemsType sheet :
  reflect_TypeOf data = Some t →
  Reflect.TKind t = Reflect.Slice ∨ Reflect.TKind t = Reflect.Array →
  Reflect.TElem t = Some itemsType →
  Reflect.TKind itemsType = Reflect.Struct →
  has_methods data Marshaller = true →
  writeWithMarshaller data sheet
  = match call_Header data with
    | Panic msg => (Panic msg, sheet)
    | Ok header =>
        match call_Data data with
        | Panic msg => (Panic msg, sheet ++ [header])
        | Ok rows => (Ok None, sheet ++ header :: rows)
        end
    end
  ∧ WriteToSheet data sheet
    = (Panic "reflect: nil type passed to Type.Implements", sheet).
Proof.
  intros Ht Hkind Helem Hstruct Hm. split.
  - unfold writeWithMarshaller. rewrite Hm, bind_lift_Ok.
    destruct (call_Header data) as [header|msg]; [|done].
    rewrite bind_lift_Ok. unfold writeHeading.
    unfold mbind at 1, M_bind at 1. rewrite writeRow_appends.
    destruct (call_Data data) as [rows|msg]; [|done].
    rewrite bind_lift_Ok. unfold mbind, M_bind.
    rewrite writeRows_appends. by rewrite <- app_assoc.
  - by rewrite (WriteToSheet_tests_the_type data t itemsType).
Qed.

Lemma WriteToSheet_never_reaches_marshaller_witness :
  writeWithMarshaller (rt := exampleRuntime) report []
  = (Ok None, [["A"; "B"]; ["1"; "2"]; ["3"; "4"]])
  ∧ WriteToSheet (rt := exampleRuntime) report []
    = (Panic "reflect: nil type passed to Type.Implements", []).
Proof.
  apply (WriteToSheet_never_reaches_marshaller (rt := exampleRuntime) report
           reportType (structOf "Line" []) []).
  - reflexivity.
  - left. reflexivity.
  - reflexivity.
  - reflexivity.
  - reflexivity.
Defined.

(* ===================================================================== *)
(** * Part IX: further properties of the code *)
(* ===================================================================== *)

(** ** The grammar of the tags, further *)

(** X1.  A tag in which [order=] does not occur is refused with the error
    of [strconv.Atoi] on the empty string, whatever else it holds. *)
Theorem parseOptFromTag_without_order tag :
  occurs "order=" tag = false →
  parseOptFromTag tag = (zeroOpts, Some (NumError "Atoi" "" ErrSyntax)).
Proof.
  intros Hocc. unfold parseOptFromTag, orderFromTag.
  unfold findStringSubmatchMap, FindStringSubmatch.
  pose proof (find_without_key KOrder tag Hocc) as Hfind. simpl in Hfind.
  rewrite Hfind. reflexivity.
Qed.

Lemma parseOptFromTag_without_order_witness :
  parseOptFromTag "heading=Name,format=%d"
  = (zeroOpts, Some (NumError "Atoi" "" ErrSyntax)).
Proof. apply (parseOptFromTag_without_order "heading=Name,format=%d"). reflexivity. Defined.

(** X2.  A tag whose order parses and in which [heading=] does not occur
    is refused with [ErrHeadingPropRequired]. *)
Theorem parseOptFromTag_without_heading tag :
  occurs "heading=" tag = false →
  (orderFromTag tag).2 = None →
  parseOptFromTag tag = (zeroOpts, Some ErrHeadingPropRequired).
Proof.
  intros Hocc Horder. unfold parseOptFromTag.
  destruct (orderFromTag tag) as [n [e|]]; [done|].
  unfold headingFromTag. change headingRegex with (pattern_of KHeading).
  by rewrite (submatch_absent KHeading tag "heading" (find_without_key KHeading tag Hocc)).
Qed.

Lemma parseOptFromTag_without_heading_witness :
  parseOptFromTag "order=3,format=%d" = (zeroOpts, Some ErrHeadingPropRequired).
Proof.
  apply (parseOptFromTag_without_heading "order=3,format=%d").
  - reflexivity.
  - vm_compute. reflexivity.
Defined.

(** X3.  The format of a tag in which [format=] does not occur is the
    empty string. *)
Theorem formatFromTag_without_format tag :
  occurs "format=" tag = false → formatFromTag tag = "".
Proof.
  intros Hocc. unfold formatFromTag.
  apply (submatch_absent KFormat), (find_without_key KFormat tag Hocc).
Qed.

Lemma formatFromTag_without_format_witness :
  formatFromTag "order=3,heading=Name" = "".
Proof. apply (formatFromTag_without_format "order=3,heading=Name"). reflexivity. Defined.

(** X4.  What [parseOptFromTag] returns without an error has an order
    between zero and the greatest [int] (never a negative one: the pattern
    reads no sign) and a heading that is not empty. *)
Theorem parseOptFromTag_invariant tag opt :
  parseOptFromTag tag = (opt, None) →
  0 ≤ order opt ≤ maxInt ∧ heading opt ≠ "".
Proof.
  unfold parseOptFromTag.
  destruct (orderFromTag tag) as [n [e|]] eqn:Hn; [done|].
  destruct (headingFromTag tag) as [hd [e|]] eqn:Hh; [done|].
  intros [= <-]. simpl. split.
  - unfold orderFromTag, findStringSubmatchMap, FindStringSubmatch in Hn.
    destruct (find orderRegex tag) as [[whole caps]|] eqn:Hf; [|done].
    simpl in Hn. unfold at_key in Hn. rewrite lookup_insert_eq in Hn. simpl in Hn.
    destruct (caps !! 1%nat) as [cap|] eqn:Hc; [|done].
    eapply Atoi_order_class; [|exact Hn]. by eapply order_capture_class.
  - unfold headingFromTag in Hh. cbv zeta in Hh.
    destruct (String.eqb _ "") eqn:He; [done|]. simpl in Hh.
    injection Hh as <-. by apply String.eqb_neq in He.
Qed.

Lemma parseOptFromTag_invariant_witness :
  0 ≤ order (mkOpts 12 "Name" "") ≤ maxInt ∧ heading (mkOpts 12 "Name" "") ≠ "".
Proof.
  apply (parseOptFromTag_invariant "heading= Name ,order=012" (mkOpts 12 "Name" "")).
  vm_compute. reflexivity.
Defined.

(** X5.  Every key of the map [findStringSubmatchMap] returns is the name
    of a group of the pattern, and never the empty name: the whole match
    and the groups without a name are left out. *)
Theorem findStringSubmatchMap_keys r s name v :
  findStringSubmatchMap r s !! name = Some v →
  name ≠ "" ∧ name ∈ (groups r).*2.
Proof.
  unfold findStringSubmatchMap.
  destruct (FindStringSubmatch r s) as [match_|]; [|by rewrite lookup_empty].
  intros [Hm|(Hne & i & Hi & Hi0)]%named_captures_keys; [by rewrite lookup_empty in Hm|].
  split; [done|].
  apply list_elem_of_lookup_1 in Hi as [j Hj].
  apply list_lookup_imap_Some in Hj as (x & Hx & [= -> ->]).
  unfold SubexpNames in Hx. destruct j as [|j]; [done|]. simpl in Hx.
  by eapply list_elem_of_lookup_2.
Qed.

Lemma findStringSubmatchMap_keys_witness :
  "heading" ≠ "" ∧ "heading" ∈ (groups headingRegex).*2.
Proof.
  apply (findStringSubmatchMap_keys headingRegex "order=1,heading=Name" "heading" "Name").
  vm_compute. reflexivity.
Defined.

(** ** [getParseOptions] *)

(** X6.  When [getParseOptions] returns no error, it returns the
    specifications of the fields that have a tag other than [-], in the
    order of the fields, and the tag of each of them parses. *)
Theorem getParseOptions_columns data opts :
  getParseOptions data = Ok (opts, None) →
  opts = omap column_of (Reflect.TFields data)
  ∧ ∀ f, f ∈ Reflect.TFields data → skipped (xls_tag f) = false →
         ∃ opt, parseOptFromTag (xls_tag f) = (opt, None) ∧ opt ∈ opts.
Proof.
  intros Hopts.
  pose proof (getParseOptions_struct _ _ Hopts) as Hstruct.
  rewrite (getParseOptions_collect _ Hstruct) in Hopts. injection Hopts as Hopts.
  apply collect_ok in Hopts as [-> Hparse]. split; [done|].
  intros f Hf Hs. destruct (Hparse f Hf Hs) as [opt Hopt]. exists opt. split; [done|].
  simpl. apply list_elem_of_omap. exists f. split; [done|].
  unfold column_of. by rewrite Hs, Hopt.
Qed.

Lemma getParseOptions_columns_witness :
  [mkOpts 2 "Name" ""; mkOpts 1 "Age" "%03d"; mkOpts 3 "Born" ""]
  = omap column_of (Reflect.TFields personType).
Proof.
  apply (getParseOptions_columns personType
           [mkOpts 2 "Name" ""; mkOpts 1 "Age" "%03d"; mkOpts 3 "Born" ""]).
  vm_compute. reflexivity.
Defined.

(** X7.  When [getParseOptions] returns an error, it returns no
    specification at all, and the error is that of the first field whose
    tag does not parse. *)
Theorem getParseOptions_first_error data opts err :
  getParseOptions data = Ok (opts, Some err) →
  opts = []
  ∧ ∃ before f after,
      Reflect.TFields data = before ++ f :: after
      ∧ Forall (λ g, skipped (xls_tag g) = true ∨ is_Some (column_of g)) before
      ∧ skipped (xls_tag f) = false
      ∧ (parseOptFromTag (xls_tag f)).2 = Some err.
Proof.
  intros Hopts.
  pose proof (getParseOptions_struct _ _ Hopts) as Hstruct.
  rewrite (getParseOptions_collect _ Hstruct) in Hopts. injection Hopts as Hopts.
  by apply collect_error in Hopts.
Qed.

Lemma getParseOptions_first_error_witness :
  ∃ before f after,
    Reflect.TFields rankedType = before ++ f :: after
    ∧ Forall (λ g, skipped (xls_tag g) = true ∨ is_Some (column_of g)) before
    ∧ skipped (xls_tag f) = false
    ∧ (parseOptFromTag (xls_tag f)).2 = Some ErrHeadingPropRequired.
Proof.
  apply (getParseOptions_first_error rankedType [] ErrHeadingPropRequired).
  vm_compute. reflexivity.
Defined.

(** X8.  A field without a tag, or with the tag [-], changes nothing to
    what [getParseOptions] returns, wherever it stands in the struct. *)
Theorem getParseOptions_skips pkg name elem methods before f after :
  skipped (xls_tag f) = true →
  getParseOptions
    (Reflect.mkType pkg name Reflect.Struct elem (before ++ f :: after) methods)
  = getParseOptions
      (Reflect.mkType pkg name Reflect.Struct elem (before ++ after) methods).
Proof.
  intros Hs. rewrite !getParseOptions_collect by done. simpl.
  by rewrite collect_skips.
Qed.

Lemma getParseOptions_skips_witness :
  getParseOptions personType
  = getParseOptions
      (structOf "Person"
         [tagged "Name" "order=2,heading=Name";
          tagged "Age" "order=1,heading=Age,format=%03d";
          tagged "Born" "order=3,heading=Born"]).
Proof.
  apply (getParseOptions_skips "main" "Person" None []
           [tagged "Name" "order=2,heading=Name"]
           (Reflect.mkField "secret" "main" [])
           [tagged "Age" "order=1,heading=Age,format=%03d";
            tagged "Born" "order=3,heading=Born"]).
  reflexivity.
Defined.

(** ** [optsByOrder] and the positions of the cells *)

(** X9.  [optsByOrder.Less] is the strict weak ordering [sort.Sort] asks
    for: on indices in range it returns without a panic, it is
    irreflexive and transitive, and so is being neither less nor
    greater. *)
Theorem optsByOrder_Less_strict_weak o i j k :
  (i < optsByOrder_Len o)%nat → (j < optsByOrder_Len o)%nat →
  (k < optsByOrder_Len o)%nat →
  ∃ lij lji ljk lkj lik lki,
    optsByOrder_Less o i j = Ok lij ∧ optsByOrder_Less o j i = Ok lji
    ∧ optsByOrder_Less o j k = Ok ljk ∧ optsByOrder_Less o k j = Ok lkj
    ∧ optsByOrder_Less o i k = Ok lik ∧ optsByOrder_Less o k i = Ok lki
    ∧ optsByOrder_Less o i i = Ok false
    ∧ (lij = true → ljk = true → lik = true)
    ∧ (lij = false → lji = false → ljk = false → lkj = false →
       lik = false ∧ lki = false).
Proof.
  unfold optsByOrder_Len, optsByOrder_Less, index. intros Hi Hj Hk.
  destruct (lookup_lt_is_Some_2 o i Hi) as [oi ->].
  destruct (lookup_lt_is_Some_2 o j Hj) as [oj ->].
  destruct (lookup_lt_is_Some_2 o k Hk) as [ok ->]. simpl.
  eexists _, _, _, _, _, _. split_and!; try reflexivity.
  - by rewrite Z.ltb_irrefl.
  - rewrite !Z.ltb_lt. lia.
  - rewrite !Z.ltb_ge. lia.
Qed.

Lemma optsByOrder_Less_strict_weak_witness :
  ∃ lij lji ljk lkj lik lki,
    optsByOrder_Less [mkOpts 1 "a" ""; mkOpts 1 "b" ""; mkOpts 3 "c" ""] 0 1 = Ok lij
    ∧ optsByOrder_Less [mkOpts 1 "a" ""; mkOpts 1 "b" ""; mkOpts 3 "c" ""] 1 0 = Ok lji
    ∧ optsByOrder_Less [mkOpts 1 "a" ""; mkOpts 1 "b" ""; mkOpts 3 "c" ""] 1 2 = Ok ljk
    ∧ optsByOrder_Less [mkOpts 1 "a" ""; mkOpts 1 "b" ""; mkOpts 3 "c" ""] 2 1 = Ok lkj
    ∧ optsByOrder_Less [mkOpts 1 "a" ""; mkOpts 1 "b" ""; mkOpts 3 "c" ""] 0 2 = Ok lik
    ∧ optsByOrder_Less [mkOpts 1 "a" ""; mkOpts 1 "b" ""; mkOpts 3 "c" ""] 2 0 = Ok lki
    ∧ optsByOrder_Less [mkOpts 1 "a" ""; mkOpts 1 "b" ""; mkOpts 3 "c" ""] 0 0 = Ok false
    ∧ (lij = true → ljk = true → lik = true)
    ∧ (lij = false → lji = false → ljk = false → lkj = false →
       lik = false ∧ lki = false).
Proof.
  apply (optsByOrder_Less_strict_weak
           [mkOpts 1 "a" ""; mkOpts 1 "b" ""; mkOpts 3 "c" ""] 0 1 2);
    vm_compute; lia.
Defined.

(** X10.  [optsByOrder.Swap] at two indices in range exchanges the two
    elements, keeps the others and the length, and undoes itself. *)
Theorem optsByOrder_Swap_exchanges o i j :
  (i < optsByOrder_Len o)%nat → (j < optsByOrder_Len o)%nat →
  ∃ o',
    optsByOrder_Swap o i j = Ok o'
    ∧ optsByOrder_Len o' = optsByOrder_Len o
    ∧ o' !! i = o !! j ∧ o' !! j = o !! i
    ∧ (∀ k, k ≠ i → k ≠ j → o' !! k = o !! k)
    ∧ optsByOrder_Swap o' i j = Ok o.
Proof.
  unfold optsByOrder_Len, optsByOrder_Swap, index. intros Hi Hj.
  destruct (lookup_lt_is_Some_2 o i Hi) as [oi Hoi].
  destruct (lookup_lt_is_Some_2 o j Hj) as [oj Hoj].
  rewrite Hoi, Hoj. simpl. eexists. split; [reflexivity|].
  assert ((<[j:=oi]> (<[i:=oj]> o)) !! j = Some oi) as Hj'.
  { apply list_lookup_insert_eq. by rewrite length_insert. }
  assert ((<[j:=oi]> (<[i:=oj]> o)) !! i = Some oj) as Hi'.
  { destruct (decide (i = j)) as [->|Hne].
    - rewrite Hj'. congruence.
    - rewrite list_lookup_insert_ne by done. by apply list_lookup_insert_eq. }
  split_and!.
  - by rewrite !length_insert.
  - exact Hi'.
  - exact Hj'.
  - intros k Hki Hkj. by rewrite !list_lookup_insert_ne.
  - rewrite Hi', Hj'. simpl. f_equal. apply list_eq. intros k.
    destruct (decide (k = j)) as [->|Hkj].
    + rewrite list_lookup_insert_eq by (by rewrite !length_insert). done.
    + rewrite list_lookup_insert_ne by done.
      destruct (decide (k = i)) as [->|Hki].
      * rewrite list_lookup_insert_eq by (by rewrite !length_insert). done.
      * by rewrite !list_lookup_insert_ne.
Qed.

Lemma optsByOrder_Swap_exchanges_witness :
  ∃ o',
    optsByOrder_Swap [mkOpts 2 "b" ""; mkOpts 1 "a" ""; mkOpts 3 "c" ""] 0 1 = Ok o'
    ∧ optsByOrder_Len o' = 3%nat
    ∧ o' !! 0%nat = Some (mkOpts 1 "a" "") ∧ o' !! 1%nat = Some (mkOpts 2 "b" "")
    ∧ (∀ k, k ≠ 0%nat → k ≠ 1%nat →
            o' !! k = [mkOpts 2 "b" ""; mkOpts 1 "a" ""; mkOpts 3 "c" ""] !! k)
    ∧ optsByOrder_Swap o' 0 1
      = Ok [mkOpts 2 "b" ""; mkOpts 1 "a" ""; mkOpts 3 "c" ""].
Proof.
  apply (optsByOrder_Swap_exchanges
           [mkOpts 2 "b" ""; mkOpts 1 "a" ""; mkOpts 3 "c" ""] 0 1);
    vm_compute; lia.
Defined.

(** X11.  The map from orders to positions that [writeWithTags] builds
    holds, for an order, the position of the last column with that order,
    and nothing for an order no column has. *)
Theorem cell_positions_last_wins opts key :
  match cell_positions opts !! key with
  | Some i =>
      ∃ o, opts !! i = Some o ∧ order o = key
           ∧ ∀ i' o', opts !! i' = Some o' → order o' = key → (i' ≤ i)%nat
  | None => key ∉ order <$> opts
  end.
Proof.
  destruct (cell_positions_from_any opts ∅ 0 key) as [H1 H2]. cbv zeta in H1, H2.
  change (foldl _ ∅ _) with (cell_positions opts) in H1, H2.
  destruct (decide (key ∈ order <$> opts)) as [Hin|Hnin].
  - destruct (H1 Hin) as (i & o & -> & Hi & Ho & Hlast). simpl. eauto.
  - by rewrite (H2 Hnin), lookup_empty.
Qed.

(** ** The rows *)

(** X12.  [writeRow] adds one row, the last, whose cells are the data in
    their order; the rows before it stay. *)
Theorem writeRow_one_row data sheet :
  ∃ sheet',
    writeRow data sheet = (Ok tt, sheet')
    ∧ length sheet' = S (length sheet)
    ∧ (∀ i row, sheet !! i = Some row → sheet' !! i = Some row)
    ∧ sheet' !! length sheet = Some data.
Proof.
  exists (sheet ++ [data]). split_and!.
  - apply writeRow_appends.
  - rewrite length_app. simpl. lia.
  - intros i row Hi. by apply lookup_app_l_Some.
  - by apply list_lookup_middle.
Qed.

(** X13.  [writeHeadingFromOpts] adds one row with the heading of each
    specification at the position of the specification. *)
Theorem writeHeadingFromOpts_headings opts sheet :
  ∃ row,
    writeHeadingFromOpts opts sheet = (Ok tt, sheet ++ [row])
    ∧ length row = length opts
    ∧ ∀ i opt, opts !! i = Some opt → row !! i = Some (heading opt).
Proof.
  exists (heading <$> opts). split_and!.
  - apply writeHeadingFromOpts_appends.
  - apply length_fmap.
  - intros i opt Hi. etrans; [apply list_lookup_fmap|]. by rewrite Hi.
Qed.

(** ** [writeWithTags], further *)

(** X14.  Whatever error [getParseOptions] returns, [writeWithTags]
    returns it and leaves the sheet as it was. *)
Theorem writeWithTags_tag_error {rt : Runtime} t itemsType items opts err sheet :
  Type_Elem t = Ok itemsType →
  getParseOptions itemsType = Ok (opts, Some err) →
  writeWithTags (VList t items) sheet = (Ok (Some err), sheet).
Proof.
  intros Helem Hopts. unfold writeWithTags, getListType. simpl.
  by rewrite Helem, bind_lift_Ok, Hopts, bind_lift_Ok.
Qed.

Lemma writeWithTags_tag_error_witness :
  writeWithTags (rt := exampleRuntime) entries [["kept"]]
  = (Ok (Some (NumError "Atoi" "" ErrSyntax)), [["kept"]]).
Proof.
  apply (writeWithTags_tag_error (rt := exampleRuntime) (sliceOf entryType) entryType
           [VStruct entryType [VString "Ann"; VInt 1]] []
           (NumError "Atoi" "" ErrSyntax) [["kept"]]).
  - reflexivity.
  - vm_compute. reflexivity.
Defined.

(** X15.  On an empty slice [writeWithTags] adds the header row and
    nothing else, also when a tagged field is not exported. *)
Theorem writeWithTags_no_items {rt : Runtime} t itemsType opts sheet :
  Type_Elem t = Ok itemsType →
  getParseOptions itemsType = Ok (opts, None) →
  writeWithTags (VList t []) sheet
  = (Ok None, sheet ++ [heading <$> sort_Sort opts]).
Proof.
  intros Helem Hopts. unfold writeWithTags, getListType. simpl.
  rewrite Helem, bind_lift_Ok, Hopts, bind_lift_Ok. cbv beta iota.
  unfold mbind at 1, M_bind at 1. by rewrite writeHeadingFromOpts_appends.
Qed.

Lemma writeWithTags_no_items_witness :
  writeWithTags (rt := exampleRuntime) (VList (sliceOf hiddenType) []) [["kept"]]
  = (Ok None, [["kept"]; ["Name"; "Age"]]).
Proof.
  apply (writeWithTags_no_items (rt := exampleRuntime) (sliceOf hiddenType) hiddenType
           [mkOpts 1 "Name" ""; mkOpts 2 "Age" ""] [["kept"]]).
  - reflexivity.
  - vm_compute. reflexivity.
Defined.

(** X16.  When the tags parse, the tagged fields are exported and the
    type switch returns on their values, [writeWithTags] returns no error,
    also when columns share an order: it adds a header with the heading of
    every column, and one row per item, each with one cell per column. *)
Theorem writeWithTags_shape {rt : Runtime} t itemsType items opts sheet :
  Type_Elem t = Ok itemsType →
  getParseOptions itemsType = Ok (opts, None) →
  sort_Sort opts ≡ₚ opts →
  (∀ f, f ∈ Reflect.TFields itemsType → skipped (xls_tag f) = false →
        Reflect.PkgPath f = "") →
  (∀ item, item ∈ items →
     ∃ fvs, item = VStruct itemsType fvs
            ∧ length fvs = length (Reflect.TFields itemsType)
            ∧ renders (Reflect.TFields itemsType) opts fvs) →
  ∃ rows,
    writeWithTags (VList t items) sheet
    = (Ok None, sheet ++ (heading <$> sort_Sort opts) :: rows)
    ∧ heading <$> sort_Sort opts ≡ₚ heading <$> opts
    ∧ length rows = length items
    ∧ Forall (λ row, length row = length opts) rows.
Proof.
  intros Helem Hopts Hsp Hexp Hitems.
  pose proof (getParseOptions_struct _ _ Hopts) as Hstruct.
  rewrite (getParseOptions_collect _ Hstruct) in Hopts. injection Hopts as Hopts.
  pose proof Hopts as Hcollect.
  apply collect_ok in Hopts as [Hcols Hparse]. simpl in Hcols. subst opts.
  set (opts := omap column_of (Reflect.TFields itemsType)) in *.
  assert (∀ f, f ∈ Reflect.TFields itemsType → skipped (xls_tag f) = false →
               is_Some (column_of f)) as Hparse'.
  { intros f Hf Hs. destruct (Hparse f Hf Hs) as [opt Hopt].
    exists opt. unfold column_of. by rewrite Hs, Hopt. }
  destruct (items_written_any itemsType (sort_Sort opts) Hstruct Hsp Hparse'
              t items (seq 0 (length items))
              (replicate (length (sort_Sort opts)) "")
              (sheet ++ [heading <$> sort_Sort opts]) Hexp)
    as (rows & values' & Hrun & Hlen & Hrows).
  { intros i Hi%elem_of_seq.
    destruct (lookup_lt_is_Some_2 items i) as [item Hitem]; [lia|].
    destruct (Hitems item) as (fvs & -> & Hfvs & Hren);
      [by eapply list_elem_of_lookup_2|].
    exists fvs. split_and!; [done..|]. by eapply renders_sorted. }
  { by rewrite length_replicate. }
  exists rows. split_and!.
  - rewrite (writeWithTags_rows t itemsType items sheet Helem Hstruct)
      by (by rewrite Hcollect).
    fold opts. unfold mbind at 1, M_bind at 1. rewrite Hrun.
    by rewrite <- app_assoc.
  - by rewrite Hsp.
  - etrans; [exact Hlen|apply length_seq].
  - eapply Forall_impl; [exact Hrows|]. intros row ->. simpl. by rewrite Hsp.
Qed.

Lemma writeWithTags_shape_witness :
  ∃ rows,
    writeWithTags (rt := exampleRuntime) pairs []
    = (Ok None, [] ++ (heading <$> insertionSort [mkOpts 1 "A" ""; mkOpts 1 "B" ""]) :: rows)
    ∧ heading <$> insertionSort [mkOpts 1 "A" ""; mkOpts 1 "B" ""]
      ≡ₚ heading <$> [mkOpts 1 "A" ""; mkOpts 1 "B" ""]
    ∧ length rows = 1%nat
    ∧ Forall (λ row, length row = 2%nat) rows.
Proof.
  apply (writeWithTags_shape (rt := exampleRuntime) (sliceOf pairType) pairType
           [VStruct pairType [VTime zeroTime; VTime zeroTime]]
           [mkOpts 1 "A" ""; mkOpts 1 "B" ""] []).
  - reflexivity.
  - vm_compute. reflexivity.
  - apply insertionSort_perm.
  - intros f Hf Hs. vm_compute in Hf.
    repeat (apply elem_of_cons in Hf as [->|Hf]; [reflexivity|]).
    by apply elem_of_nil in Hf.
  - example_items.
Defined.

(** X17.  The cells of the rows, also when columns share an order.  Of
    the columns with one order only the last is filled, with the value of
    the last field that has this order, rendered with the specification of
    that column; the cells of the other columns with this order are empty
    in every row. *)
Theorem writeWithTags_cells {rt : Runtime} t itemsType items opts sheet :
  Type_Elem t = Ok itemsType →
  getParseOptions itemsType = Ok (opts, None) →
  sort_Sort opts ≡ₚ opts →
  (∀ f, f ∈ Reflect.TFields itemsType → skipped (xls_tag f) = false →
        Reflect.PkgPath f = "") →
  (∀ item, item ∈ items →
     ∃ fvs, item = VStruct itemsType fvs
            ∧ length fvs = length (Reflect.TFields itemsType)
            ∧ renders (Reflect.TFields itemsType) opts fvs) →
  ∃ rows,
    writeWithTags (VList t items) sheet
    = (Ok None, sheet ++ (heading <$> sort_Sort opts) :: rows)
    ∧ ∀ i fvs pos o,
        items !! i = Some (VStruct itemsType fvs) →
        sort_Sort opts !! pos = Some o →
        ∃ row,
          rows !! i = Some row
          ∧ ((∃ pos' o', (pos < pos')%nat ∧ sort_Sort opts !! pos' = Some o'
                         ∧ order o' = order o) →
             row !! pos = Some "")
          ∧ ((∀ pos' o', sort_Sort opts !! pos' = Some o' → order o' = order o →
                         (pos' ≤ pos)%nat) →
             ∀ j f opt val,
               Reflect.TFields itemsType !! j = Some f →
               column_of f = Some opt → order opt = order o →
               (∀ j' f' opt', (j < j')%nat →
                  Reflect.TFields itemsType !! j' = Some f' →
                  column_of f' = Some opt' → order opt' ≠ order o) →
               fvs !! j = Some val →
               ∃ text, render o val = Ok text ∧ row !! pos = Some text).
Proof.
  intros Helem Hopts Hsp Hexp Hitems.
  pose proof (getParseOptions_struct _ _ Hopts) as Hstruct.
  rewrite (getParseOptions_collect _ Hstruct) in Hopts. injection Hopts as Hopts.
  pose proof Hopts as Hcollect.
  apply collect_ok in Hopts as [Hcols Hparse]. simpl in Hcols. subst opts.
  set (opts := omap column_of (Reflect.TFields itemsType)) in *.
  assert (∀ f, f ∈ Reflect.TFields itemsType → skipped (xls_tag f) = false →
               is_Some (column_of f)) as Hparse'.
  { intros f Hf Hs. destruct (Hparse f Hf Hs) as [opt Hopt].
    exists opt. unfold column_of. by rewrite Hs, Hopt. }
  destruct (items_written_last itemsType (sort_Sort opts) Hstruct Hsp Hparse' Hexp
              t items (seq 0 (length items))
              (replicate (length (sort_Sort opts)) "")
              (sheet ++ [heading <$> sort_Sort opts]))
    as (rows & values' & Hrun & Hlen & Hrows).
  { intros i Hi%elem_of_seq.
    destruct (lookup_lt_is_Some_2 items i) as [item Hitem]; [lia|].
    destruct (Hitems item) as (fvs & -> & Hfvs & Hren);
      [by eapply list_elem_of_lookup_2|].
    exists fvs. split_and!; [done..|]. by eapply renders_sorted. }
  { by rewrite length_replicate. }
  exists rows. split.
  - rewrite (writeWithTags_rows t itemsType items sheet Helem Hstruct)
      by (by rewrite Hcollect).
    fold opts. unfold mbind at 1, M_bind at 1. rewrite Hrun.
    by rewrite <- app_assoc.
  - intros i fvs pos o Hi Hpos.
    destruct (Hrows i i fvs) as (row & Hrow & Hframe & Hlast); [|done|].
    { apply lookup_seq. split; [done|]. by eapply lookup_lt_Some. }
    exists row. split_and!; [done| |].
    + intros (pos' & o' & Hlt & Hpos' & Ho').
      rewrite Hframe.
      * apply lookup_replicate_2. by eapply lookup_lt_Some.
      * intros j (f & opt & Hf & Hc & Hm).
        apply cell_positions_last in Hm as (o2 & Hpos2 & Ho2 & Hmax).
        rewrite Hpos in Hpos2. injection Hpos2 as <-.
        specialize (Hmax pos' o' Hpos'). rewrite Ho', Ho2 in Hmax.
        specialize (Hmax eq_refl). lia.
    + intros Hmax j f opt val Hf Hc Ho Hlater Hval.
      destruct (Hitems (VStruct itemsType fvs)) as (fvs' & [= <-] & Hfvs & Hren);
        [by eapply list_elem_of_lookup_2|].
      destruct (Hren j f opt o val) as [text Hr]; [done|done| |done|done|].
      { rewrite <- Hsp. by eapply list_elem_of_lookup_2. }
      exists text. split; [done|].
      apply (Hlast j pos o val text); [| |done..].
      * exists f, opt. split_and!; [done..|].
        apply cell_positions_last. exists o. split_and!; [done..|].
        intros pos' o' Hpos' Ho'. apply (Hmax pos' o' Hpos'). congruence.
      * intros j' Hlt (f' & opt' & Hf' & Hc' & Hm').
        apply cell_positions_last in Hm' as (o2 & Hpos2 & Ho2 & _).
        rewrite Hpos in Hpos2. injection Hpos2 as <-.
        by apply (Hlater j' f' opt' Hlt Hf' Hc').
Qed.

Lemma writeWithTags_cells_witness :
  ∃ rows,
    writeWithTags (rt := exampleRuntime) pairs []
    = (Ok None, [] ++ (heading <$> insertionSort [mkOpts 1 "A" ""; mkOpts 1 "B" ""]) :: rows).
Proof.
  destruct (writeWithTags_cells (rt := exampleRuntime) (sliceOf pairType) pairType
           [VStruct pairType [VTime zeroTime; VTime zeroTime]]
           [mkOpts 1 "A" ""; mkOpts 1 "B" ""] []) as (rows & Hrun & _).
  - reflexivity.
  - vm_compute. reflexivity.
  - apply insertionSort_perm.
  - intros f Hf Hs. vm_compute in Hf.
    repeat (apply elem_of_cons in Hf as [->|Hf]; [reflexivity|]).
    by apply elem_of_nil in Hf.
  - example_items.
  - by exists rows.
Defined.

(** X18.  When the first item reaches a tagged field that is not
    exported, the type switch having returned on the tagged fields before
    it, [writeWithTags] panics in [Value.Interface]; the header is written
    by then, and nothing else. *)
Theorem writeWithTags_unexported_panics {rt : Runtime}
    t itemsType fvs more opts before f after sheet :
  Type_Elem t = Ok itemsType →
  getParseOptions itemsType = Ok (opts, None) →
  sort_Sort opts ≡ₚ opts →
  Reflect.TFields itemsType = before ++ f :: after →
  (∀ g, g ∈ before → skipped (xls_tag g) = false → Reflect.PkgPath g = "") →
  renders before opts fvs →
  skipped (xls_tag f) = false →
  Reflect.PkgPath f ≠ "" →
  length fvs = length (Reflect.TFields itemsType) →
  writeWithTags (VList t (VStruct itemsType fvs :: more)) sheet
  = (Panic "reflect.Value.Interface: cannot return value obtained from unexported field or method",
     sheet ++ [heading <$> sort_Sort opts]).
Proof.
  intros Helem Hopts Hsp Hfields Hexp Hren Hs Hpkg Hfvs.
  destruct (lookup_lt_is_Some_2 fvs (length before)) as [val Hv].
  { rewrite Hfvs, Hfields, length_app. simpl. lia. }
  apply (writeWithTags_first_panic t itemsType fvs more opts before f after val);
    try done.
  apply String.eqb_neq in Hpkg. by rewrite Hpkg.
Qed.

Lemma writeWithTags_unexported_panics_witness :
  writeWithTags (rt := exampleRuntime) hidden []
  = (Panic "reflect.Value.Interface: cannot return value obtained from unexported field or method",
     [] ++ [heading <$> insertionSort [mkOpts 1 "Name" ""; mkOpts 2 "Age" ""]]).
Proof.
  apply (writeWithTags_unexported_panics (rt := exampleRuntime) (sliceOf hiddenType)
           hiddenType [VString "Ann"; VInt 41] []
           [mkOpts 1 "Name" ""; mkOpts 2 "Age" ""]
           [tagged "Name" "order=1,heading=Name"]
           (Reflect.mkField "age" "main" [(tagName, "order=2,heading=Age")]) [] []).
  - reflexivity.
  - vm_compute. reflexivity.
  - apply insertionSort_perm.
  - reflexivity.
  - intros g Hg Hs.
    repeat (apply elem_of_cons in Hg as [->|Hg]; [reflexivity|]).
    by apply elem_of_nil in Hg.
  - example_renders.
  - reflexivity.
  - discriminate.
  - reflexivity.
Defined.

(** X19.  [writeWithTags] only appends: what it returns, a value or a
    panic, and the rows it adds do not depend on the rows the sheet holds,
    and those rows stay, also when it panics. *)
Theorem writeWithTags_only_appends {rt : Runtime} data :
  appends (writeWithTags data).
Proof.
  unfold writeWithTags.
  apply appends_bind; [apply appends_lift|]. intros itemsType.
  apply appends_bind; [apply appends_lift|]. intros [opts [err|]];
    [apply appends_ret|].
  apply appends_bind; [apply appends_writeRow|]. intros _.
  apply appends_bind; [apply appends_lift|]. intros n.
  apply appends_bind; [|intros; apply appends_ret].
  apply appends_foldM. intros values i. unfold writeItem.
  apply appends_bind; [apply appends_lift|]. intros item.
  apply appends_bind; [apply appends_lift|]. intros nf.
  apply appends_bind; [apply appends_lift|]. intros values'.
  apply appends_bind; [apply appends_writeRow|]. intros _. apply appends_ret.
Qed.

(** X23.  When the type switch panics on the value of a tagged field of
    the first item, as [String] does on a nil pointer, having returned on
    the tagged fields before it, [writeWithTags] panics with that panic;
    the header is written by then, and nothing else. *)
Theorem writeWithTags_render_panics {rt : Runtime}
    t itemsType fvs more opts before f after val msg sheet :
  Type_Elem t = Ok itemsType →
  getParseOptions itemsType = Ok (opts, None) →
  sort_Sort opts ≡ₚ opts →
  Reflect.TFields itemsType = before ++ f :: after →
  (∀ g, g ∈ before → skipped (xls_tag g) = false → Reflect.PkgPath g = "") →
  renders before opts fvs →
  skipped (xls_tag f) = false →
  Reflect.PkgPath f = "" →
  fvs !! length before = Some val →
  (∀ o, o ∈ opts → render o val = Panic msg) →
  length fvs = length (Reflect.TFields itemsType) →
  writeWithTags (VList t (VStruct itemsType fvs :: more)) sheet
  = (Panic msg, sheet ++ [heading <$> sort_Sort opts]).
Proof.
  intros Helem Hopts Hsp Hfields Hexp Hren Hs Hpkg Hv Hmsg Hfvs.
  apply (writeWithTags_first_panic t itemsType fvs more opts before f after val);
    try done.
  by rewrite Hpkg.
Qed.

Lemma writeWithTags_render_panics_witness :
  writeWithTags (rt := exampleRuntime)
    (VList (sliceOf eventType) [VStruct eventType [VString "landing"; nilTime]]) []
  = (Panic nil_dereference,
     [] ++ [heading <$> insertionSort [mkOpts 1 "Name" ""; mkOpts 2 "At" ""]]).
Proof.
  apply (writeWithTags_render_panics (rt := exampleRuntime) (sliceOf eventType)
           eventType [VString "landing"; nilTime] []
           [mkOpts 1 "Name" ""; mkOpts 2 "At" ""]
           [tagged "Name" "order=1,heading=Name"]
           (tagged "At" "order=2,heading=At") [] nilTime nil_dereference []).
  - reflexivity.
  - vm_compute. reflexivity.
  - apply insertionSort_perm.
  - reflexivity.
  - intros g Hg Hs.
    repeat (apply elem_of_cons in Hg as [->|Hg]; [reflexivity|]).
    by apply elem_of_nil in Hg.
  - example_renders.
  - reflexivity.
  - reflexivity.
  - reflexivity.
  - reflexivity.
  - reflexivity.
Defined.

(** The sheet of [events]: the row of the first event is written, then
    [String] panics on the nil pointer of the second. *)
Example writeWithTags_events :
  writeWithTags (rt := exampleRuntime) events []
  = (Panic nil_dereference, [["Name"; "At"]; ["Sprintf()"; "String()"]]).
Proof. vm_compute. reflexivity. Qed.

(** ** [writeWithMarshaller] and [WriteToSheet], further *)

(** X20.  [writeWithMarshaller] only appends, in the same sense: also
    when the type assertion or one of the methods panics. *)
Theorem writeWithMarshaller_only_appends {rt : Runtime} data :
  appends (writeWithMarshaller data).
Proof.
  unfold writeWithMarshaller.
  apply appends_bind; [apply appends_lift|]. intros m.
  apply appends_bind; [apply appends_lift|]. intros header.
  apply appends_bind; [apply appends_writeRow|]. intros _.
  apply appends_bind; [apply appends_lift|]. intros rows.
  apply appends_bind; [|intros; apply appends_ret].
  apply appends_foldM. intros _ row. apply appends_writeRow.
Qed.

(** X21.  A slice or an array whose element type is no struct is refused
    with [ErrUnsupportedContentType], and the sheet is as it was. *)
Theorem WriteToSheet_unsupported_content {rt : Runtime} data t itemsType sheet :
  reflect_TypeOf data = Some t →
  Reflect.TKind t = Reflect.Slice ∨ Reflect.TKind t = Reflect.Array →
  Reflect.TElem t = Some itemsType →
  Reflect.TKind itemsType ≠ Reflect.Struct →
  WriteToSheet data sheet = (Ok (Some ErrUnsupportedContentType), sheet).
Proof.
  intros Ht Hkind Helem Hstruct.
  unfold WriteToSheet, Value_Kind, reflect_ValueOf, getListType, Type_Elem, Type_Kind.
  rewrite Ht, Helem.
  destruct Hkind as [Hk|Hk]; rewrite Hk; simpl; rewrite bind_lift_Ok;
    by rewrite bool_decide_eq_false_2.
Qed.

Lemma WriteToSheet_unsupported_content_witness :
  WriteToSheet (rt := exampleRuntime) numbers [["kept"]]
  = (Ok (Some ErrUnsupportedContentType), [["kept"]]).
Proof.
  apply (WriteToSheet_unsupported_content (rt := exampleRuntime) numbers
           (sliceOf intType) intType [["kept"]]).
  - reflexivity.
  - left. reflexivity.
  - reflexivity.
  - discriminate.
Defined.

(** X22.  As the code stands, [WriteToSheet] never returns [nil] and
    never adds a row: it returns an error or it panics, and in either case
    the sheet is as it was. *)
Theorem WriteToSheet_never_writes {rt : Runtime} data sheet :
  (∃ err, WriteToSheet data sheet = (Ok (Some err), sheet))
  ∨ (∃ msg, WriteToSheet data sheet = (Panic msg, sheet)).
Proof.
  unfold WriteToSheet.
  destruct (negb (bool_decide (Value_Kind (reflect_ValueOf data) = Reflect.Array))
            && negb (bool_decide (Value_Kind (reflect_ValueOf data) = Reflect.Slice)));
    [left; by eexists|].
  destruct (getListType data) as [itemsType|msg] eqn:Hlist; [|right; by eexists].
  rewrite bind_lift_Ok.
  destruct (negb (bool_decide (Type_Kind itemsType = Reflect.Struct)));
    [left; by eexists|].
  right. destruct (Value_Type (reflect_ValueOf data)) as [t|msg]; by eexists.
Qed.
